(** * Internship-Sioux notebooks: a shallow embedding and its properties

    The repository holds four exploratory notebooks:
    - [Bayesics_Coin.ipynb] (Julia): conjugate Beta/Bernoulli updating and a
      multi-armed bandit driven by an upper-credible-bound rule;
    - the VB notebook (Python, numpy + BayesPy): a discretised linear thermal
      model, its data generator and the back-transformation of the inferred
      transition matrix into conductances;
    - [Explore_MCMC.ipynb] (Julia): the lumped ODE right-hand side and the
      MSE helper;
    - [Explore_UKF.ipynb] (Julia): the one-block cooling simulation, the data
      generator and the MSE helper.

    Conventions of the embedding.
    - Julia's [Int] is [Int64]: an integer in [Z] with the wrap-around of
      every addition and subtraction written out ([wrap64]).
    - [Float64] arithmetic is idealised as arithmetic in [R]; rounding, [Inf]
      and [NaN] are outside the model.  Where floats are only compared (the
      bandit), a finite [Float64] is the rational number it denotes ([Q]).
    - Exceptions thrown by library primitives (indexing, broadcasting,
      [sqrt], [argmax], constructors of distributions) are the [exn] values
      of a [result]; the notebooks themselves contain no [throw], [try] or
      [catch].
    - Random draws come from an explicit stream that is threaded through the
      code in the order in which the source consumes it. *)

From Stdlib Require Import Reals Lra ZArith Lia List QArith.
From stdpp Require Import gmap list.

(** ** Exceptions and results shared by the notebooks *)

Inductive exn : Set :=
| BoundsError        (* Julia: index outside 1..length *)
| DimensionMismatch  (* Julia: shapes of array operands differ *)
| DomainError        (* Julia: argument outside a function's domain *)
| ArgumentError      (* Julia: e.g. reducing over an empty collection *)
| MethodError        (* Julia: no method for the dynamic type *)
| UndefRefError      (* Julia: access to an undefined reference *)
| IndexError.        (* Python/numpy: index out of range *)

Inductive result (A : Type) : Type :=
| Ok (a : A)
| Raise (e : exn).
Arguments Ok {A} a.
Arguments Raise {A} e.

#[global] Instance result_ret : MRet result := fun _ a => Ok a.
#[global] Instance result_bind : MBind result := fun _ _ f m =>
  match m with
  | Ok a => f a
  | Raise e => Raise e
  end.

Definition is_Ok {A} (r : result A) : Prop := exists a, r = Ok a.

(** [raises_only E r]: when [r] is an exception, it is one of [E]. *)
Definition raises_only {A} (E : list exn) (r : result A) : Prop :=
  forall e, r = Raise e -> e ∈ E.

(** A comprehension [[f(x) for x in l]] whose body may throw is stdpp's
    [mapM f l] in [result]: elements are evaluated left to right and the
    first exception wins. *)

(** A [for] loop over a range whose body updates the loop state and may
    throw. *)
Fixpoint for_range {S} (body : S -> nat -> result S) (st : S) (range : list nat)
    : result S :=
  match range with
  | [] => Ok st
  | n :: range' => st' ← body st n; for_range body st' range'
  end.

(** Julia arrays are indexed from 1. *)
Definition getindex {A} (v : list A) (i : nat) : result A :=
  match i with
  | O => Raise BoundsError
  | S j => match v !! j with
           | Some x => Ok x
           | None => Raise BoundsError
           end
  end.

Definition setindex {A} (v : list A) (x : A) (i : nat) : result (list A) :=
  match i with
  | O => Raise BoundsError
  | S j => if decide (j < length v)%nat then Ok (<[j := x]> v)
           else Raise BoundsError
  end.

(** ** Bayesics_Coin.ipynb (Julia) *)

Module Bayesics_Coin.

Open Scope Z_scope.

(** *** Int64 arithmetic *)

Definition wrap64 (z : Z) : Z := (z + 2 ^ 63) mod 2 ^ 64 - 2 ^ 63.
Definition in_int64 (z : Z) : Prop := - 2 ^ 63 <= z < 2 ^ 63.
Definition add64 (a b : Z) : Z := wrap64 (a + b).
Definition sub64 (a b : Z) : Z := wrap64 (a - b).

(** [Int(y)] for [y::Bool]. *)
Definition of_bool (y : bool) : Z := if y then 1 else 0.

(** *** Broadcasting [u .+ v] of two vectors

    Equal lengths add elementwise, a vector of length one is stretched, any
    other pair of lengths throws [DimensionMismatch].  The result is always a
    freshly allocated vector. *)
Definition broadcast_add (u v : list Z) : result (list Z) :=
  if decide (length u = length v) then Ok (zip_with add64 u v)
  else match u, v with
       | [a], _ => Ok (map (add64 a) v)
       | _, [b] => Ok (map (fun x => add64 x b) u)
       | _, _ => Raise DimensionMismatch
       end.

(** [post_recursive(prior, y::Bool) = prior .+ [y, 1 - y]] *)
Definition post_recursive (prior : list Z) (y : bool) : result (list Z) :=
  broadcast_add prior [of_bool y; sub64 1 (of_bool y)].

(** [sum(data)] and [length(data)] of a [Vector{Bool}], both [Int64]. *)
Definition sum (data : list bool) : Z := foldl add64 0 (of_bool <$> data).
Definition length64 (data : list bool) : Z := wrap64 (Z.of_nat (length data)).

(** [post_batch(prior, data::Vector{Bool}) =
      prior .+ [sum(data), length(data) - sum(data)]] *)
Definition post_batch (prior : list Z) (data : list bool) : result (list Z) :=
  broadcast_add prior [sum data; sub64 (length64 data) (sum data)].

(** The filtering recursion of [make_gif_recursive] without its plotting:
    [post = prior; for y in data: post = post_recursive(post, y)]. *)
Fixpoint filter_recursive (post : list Z) (data : list bool) : result (list Z) :=
  match data with
  | [] => Ok post
  | y :: data' => post' ← post_recursive post y; filter_recursive post' data'
  end.

(** Numbers of [true] and of [false] observations. *)
Definition n_true (data : list bool) : Z :=
  Z.of_nat (count_occ Bool.bool_dec data true).
Definition n_false (data : list bool) : Z :=
  Z.of_nat (count_occ Bool.bool_dec data false).

(** *** The bandit: [choose_arm] *)

(** [Beta(α, β)] of Distributions.jl: the constructor checks [α > 0] and
    [β > 0] and throws otherwise ([DomainError]; an [ArgumentError] in older
    releases of the library). *)
Record BetaDist : Set := mkBeta { shape_a : Z; shape_b : Z }.

Definition Beta (a b : Z) : result BetaDist :=
  if decide (0 < a /\ 0 < b) then Ok (mkBeta a b) else Raise DomainError.

(** [isless] on finite floats. *)
Definition isless (a b : Q) : bool := negb (Qle_bool b a).

(** Julia's [findmax] scans from the left and replaces the running maximum
    only by a strictly larger element ([isless(best, x)]). *)
Fixpoint findmax_from (best : Q) (ibest i : nat) (l : list Q) : Q * nat :=
  match l with
  | [] => (best, ibest)
  | x :: l' =>
      if isless best x then findmax_from x i (S i) l'
      else findmax_from best ibest (S i) l'
  end.

(** [argmax(v)]: the (1-based) index [findmax(v)[2]]; an empty collection
    throws [ArgumentError]. *)
Definition argmax (v : list Q) : result nat :=
  match v with
  | [] => Raise ArgumentError
  | x :: v' => Ok (snd (findmax_from x 1 2 v'))
  end.

Section Bandit.

(** [quantile(Beta(α, β), q)] of Distributions.jl, a finite float. *)
Variable quantile : BetaDist -> Q -> Q.

(** [[
function choose_arm(posts)
    dists = [Beta(post[1], post[2]) for post in posts]
    cred_int_tops = [quantile(dist, 0.975) for dist in dists]
    return argmax(cred_int_tops)[1]
end
]]
    Indexing an [Int] by [[1]] returns the integer itself. *)
Definition choose_arm (posts : list (list Z)) : result nat :=
  dists ← mapM (fun post => a ← getindex post 1; b ← getindex post 2; Beta a b) posts;
  let cred_int_tops := map (fun dist => quantile dist (39 # 40)) dists in
  arm ← argmax cred_int_tops;
  Ok arm.

(** A posterior parameter pair: two positive Beta parameters. *)
Definition Beta_params (post : list Z) : Prop :=
  exists a b, post = [a; b] /\ 0 < a /\ 0 < b.

(** The top of the 95 % credible interval of the posterior [post]. *)
Definition cred_int_top (post : list Z) : Q :=
  match post with
  | a :: b :: _ => quantile (mkBeta a b) (39 # 40)
  | _ => 0%Q
  end.

End Bandit.


(** *** The bandit simulations, on a store of Julia arrays

    [priors] is a [Vector{Vector{Int64}}]: a vector of references to the
    parameter vectors.  [copy] is shallow, so [posts] and [priors] start out
    sharing every inner vector. *)

Abbreviation loc := positive (only parsing).

Inductive object : Set :=
| VecInt (xs : list Z)      (* Vector{Int64} *)
| VecVec (rs : list loc).   (* Vector{Vector{Int64}}: references *)

(** The state of a run: the store, the number of draws taken from the random
    stream so far, and the frames handed to the plotting backend by [@gif]. *)
Record world : Type := mkWorld {
  heap : gmap loc object;
  drawn : nat;
  frames : list (nat * list (list Z))
}.

(** Computations that read and write the world and may throw; the world
    survives an exception. *)
Definition M (A : Type) : Type := world -> result A * world.

#[global] Instance M_ret : MRet M := fun _ a w => (Ok a, w).
#[global] Instance M_bind : MBind M := fun _ _ f m w =>
  match m w with
  | (Ok a, w') => f a w'
  | (Raise e, w') => (Raise e, w')
  end.

Definition lift {A} (r : result A) : M A := fun w => (r, w).

Definition alloc (o : object) : M loc := fun w =>
  let l := fresh (dom (heap w)) in
  (Ok l, mkWorld (<[l := o]> (heap w)) (drawn w) (frames w)).

Definition load (l : loc) : M object := fun w =>
  match heap w !! l with
  | Some o => (Ok o, w)
  | None => (Raise UndefRefError, w)
  end.

Definition store (l : loc) (o : object) : M unit := fun w =>
  (Ok tt, mkWorld (<[l := o]> (heap w)) (drawn w) (frames w)).

Definition load_int (l : loc) : M (list Z) :=
  o ← load l;
  match o with
  | VecInt xs => mret xs
  | VecVec _ => lift (Raise MethodError)
  end.

Definition load_refs (l : loc) : M (list loc) :=
  o ← load l;
  match o with
  | VecVec rs => mret rs
  | VecInt _ => lift (Raise MethodError)
  end.

(** [copy(v)]: a new outer vector holding the same elements. *)
Definition copy (l : loc) : M loc := o ← load l; alloc o.

(** The parameter vectors reachable from [posts], in order. *)
Definition read_posts (posts : loc) : M (list (list Z)) :=
  rs ← load_refs posts; mapM load_int rs.

(** [posts[arm] = new]: the slot of the outer vector is overwritten with a
    reference to a newly allocated vector. *)
Definition setindex_posts (posts : loc) (new : list Z) (arm : nat) : M unit :=
  rs ← load_refs posts;
  l ← alloc (VecInt new);
  rs' ← lift (setindex rs l arm);
  store posts (VecVec rs').

(** [Bernoulli(p)] checks [0 <= p <= 1]. *)
Definition Bernoulli (p : Q) : result Q :=
  if Qle_bool 0 p && Qle_bool p 1 then Ok p else Raise DomainError.

(** A [Float64] result that need not be finite. *)
Inductive float : Set :=
| Finite (q : Q)
| Inf (negative : bool)
| NaN.

(** [x / y] for [x, y :: Int]: the quotient of the two converted floats. *)
Definition int_div (x y : Z) : float :=
  if decide (y = 0) then
    (if decide (x = 0) then NaN else Inf (bool_decide (x < 0)))
  else Finite (inject_Z x / inject_Z y)%Q.

Section Simulation.

Variable quantile : BetaDist -> Q -> Q.

(** The successive values of [rand()] of the global random number
    generator, each in [[0, 1)]. *)
Variable uniform : nat -> Q.

(** [rand(Bernoulli(p))] is [rand() <= p]. *)
Definition rand_Bernoulli (p : Q) : M bool := fun w =>
  (Ok (Qle_bool (uniform (drawn w)) p),
   mkWorld (heap w) (S (drawn w)) (frames w)).

(** The three statements shared by the loop bodies of both simulations:
[[
        arm = choose_arm(posts)
        success = rand(Bernoulli(true_ps[arm]))
        posts[arm] = post_recursive(posts[arm], success)
]] *)
Definition pull (posts : loc) (true_ps : list Q) : M bool :=
  vals ← read_posts posts;
  arm ← lift (choose_arm quantile vals);
  p ← lift (getindex true_ps arm);
  d ← lift (Bernoulli p);
  success ← rand_Bernoulli d;
  post ← lift (getindex vals arm);
  post' ← lift (post_recursive post success);
  setindex_posts posts post' arm;;
  mret success.

(** [[
function explore_and_exploit(priors, true_ps, sample_size)
    posts = copy(priors)
    successes = 0
    for _ ∈ 1:sample_size
        arm = choose_arm(posts)
        success = rand(Bernoulli(true_ps[arm]))
        posts[arm] = post_recursive(posts[arm], success)
        successes += success
    end
    return successes / sample_size
end
]] *)
Fixpoint explore_and_exploit_loop (n : nat) (posts : loc) (true_ps : list Q)
    (successes : Z) : M Z :=
  match n with
  | O => mret successes
  | S n' =>
      success ← pull posts true_ps;
      explore_and_exploit_loop n' posts true_ps (add64 successes (of_bool success))
  end.

Definition explore_and_exploit (priors : loc) (true_ps : list Q)
    (sample_size : Z) : M float :=
  posts ← copy priors;
  successes ← explore_and_exploit_loop (Z.to_nat sample_size) posts true_ps 0;
  mret (int_div successes sample_size).

Definition emit_frame (n : nat) (vals : list (list Z)) : M unit := fun w =>
  (Ok tt, mkWorld (heap w) (drawn w) (frames w ++ [(n, vals)])).

(** [plot_posts(posts, true_ps, n)] builds [Beta(post[1], post[2])] for
    every posterior, reads means and quantiles off these distributions and
    draws them; it writes no array.  The drawing itself belongs to the
    plotting library: the model records the frame. *)
Definition plot_posts (posts : loc) (true_ps : list Q) (n : nat) : M unit :=
  vals ← read_posts posts;
  lift (mapM (fun post => a ← getindex post 1; b ← getindex post 2; Beta a b) vals);;
  emit_frame n vals.

(** [[
function explore_and_exploit_plot(priors, true_ps, sample_size)
    posts = copy(priors)
    @gif for n ∈ 1:sample_size
        arm = choose_arm(posts)
        success = rand(Bernoulli(true_ps[arm]))
        posts[arm] = post_recursive(posts[arm], success)
        plot_posts(posts, true_ps, n)
    end
end
]] *)
Fixpoint explore_and_exploit_plot_loop (k : nat) (n : nat) (posts : loc)
    (true_ps : list Q) : M unit :=
  match k with
  | O => mret tt
  | S k' =>
      pull posts true_ps;;
      plot_posts posts true_ps n;;
      explore_and_exploit_plot_loop k' (S n) posts true_ps
  end.

Definition explore_and_exploit_plot (priors : loc) (true_ps : list Q)
    (sample_size : Z) : M unit :=
  posts ← copy priors;
  explore_and_exploit_plot_loop (Z.to_nat sample_size) 1 posts true_ps.

End Simulation.

(** The value of a [Vector{Vector{Int64}}] held at [l]: the contents of the
    vectors it refers to. *)
Definition load_vec (h : gmap loc object) (l : loc) : option (list Z) :=
  match h !! l with
  | Some (VecInt xs) => Some xs
  | _ => None
  end.

Definition value_of (h : gmap loc object) (l : loc) : option (list (list Z)) :=
  match h !! l with
  | Some (VecVec rs) => mapM (load_vec h) rs
  | _ => None
  end.

(** *** Vocabulary of the properties *)

(** [preserves h0 m]: running [m] keeps every object of [h0] as it is. *)
Definition preserves {A} (h0 : gmap loc object) (m : M A) : Prop :=
  forall w, h0 ⊆ heap w -> h0 ⊆ heap (m w).2.

(** A stand-in for the library's quantile, used to run the model on
    examples: the posterior mean [a / (a + b)]. *)
Definition mean_stub (d : BetaDist) (_ : Q) : Q :=
  (shape_a d # Z.to_pos (shape_a d + shape_b d))%Q.

(** A store holding [priors_init = [[1, 1], [1, 1]]] at location 1. *)
Definition two_arms : world :=
  mkWorld (<[1%positive := VecVec [2%positive; 3%positive]]>
            (<[2%positive := VecInt [1; 1]]>
              (<[3%positive := VecInt [1; 1]]> ∅))) 0 [].

(** The distribution built from a parameter vector. *)
Definition dist_of (post : list Z) : BetaDist :=
  match post with
  | a :: b :: _ => mkBeta a b
  | _ => mkBeta 0 0
  end.

End Bayesics_Coin.

(** ** The VB notebook (Python, numpy) *)

Module Explore_VB.

Open Scope R_scope.

(** *** numpy arrays

    A one-dimensional array is a list of reals, a two-dimensional array the
    list of its rows.  numpy refuses operands whose shapes do not match
    ([ValueError]); every array of the notebook has the shape [(D,)],
    [(D, D)] or [(N, D)] with [M = D], so the operations below are the list
    operations, used at matching shapes (the properties state the shapes
    they need). *)

Abbreviation vec := (list R).
Abbreviation matrix := (list (list R)).

Definition is_matrix (r c : nat) (A : matrix) : Prop :=
  length A = r /\ Forall (fun row => length row = c) A.

Definition vadd (u v : vec) : vec := zip_with Rplus u v.
Definition vsub (u v : vec) : vec := zip_with Rminus u v.
Definition vscale (c : R) (v : vec) : vec := map (Rmult c) v.
Definition madd (A B : matrix) : matrix := zip_with vadd A B.
Definition msub (A B : matrix) : matrix := zip_with vsub A B.
Definition mscale (c : R) (A : matrix) : matrix := map (vscale c) A.
Definition mdiv (A : matrix) (c : R) : matrix := map (map (fun x => x / c)) A.

(** [np.dot(u, v)] of two vectors. *)
Definition dot (u v : vec) : R := foldr Rplus 0 (zip_with Rmult u v).

(** [np.dot(A, v)]: the matrix-vector product. *)
Definition matvec (A : matrix) (v : vec) : vec := map (fun row => dot row v) A.

(** [v @ B] for a row vector: the combination [sum_k v[k] * B[k, :]] of the
    rows of [B], each of length [c]. *)
Definition vecmat (c : nat) (v : vec) (B : matrix) : vec :=
  foldr vadd (replicate c 0) (zip_with vscale v B).

Definition ncols (B : matrix) : nat := length (hd [] B).

(** [np.matmul(A, B)]: row [i] of the product is [A[i, :] @ B]. *)
Definition matmul (A B : matrix) : matrix := map (fun row => vecmat (ncols B) row B) A.

(** [np.diag(ms)]. *)
Fixpoint diag (ms : list R) : matrix :=
  match ms with
  | [] => []
  | m :: ms' => (m :: replicate (length ms') 0) :: map (cons 0) (diag ms')
  end.

(** [np.identity(D)]. *)
Definition identity (D : nat) : matrix := diag (replicate D 1).

(** The diagonal of a matrix. *)
Definition diagonal (A : matrix) : list R := imap (fun i row => nth i row 0) A.

(** [np.linalg.inv] on the matrices the notebook inverts, which are
    diagonal ([Mconst = np.diag(...)]): the diagonal matrix of the
    reciprocals. *)
Definition linalg_inv (A : matrix) : matrix := diag (map Rinv (diagonal A)).

(** [A[i, j]], indices from 0. *)
Definition item (A : matrix) (i j : nat) : result R :=
  match A !! i with
  | Some row => match row !! j with
                | Some x => Ok x
                | None => Raise IndexError
                end
  | None => Raise IndexError
  end.

(** The [n]-th power of a [D x D] matrix. *)
Definition mpow (D : nat) (A : matrix) (n : nat) : matrix :=
  Nat.iter n (matmul A) (identity D).

(** *** The discretised dynamics and the back-transformation *)

(** [K] of the two-block and of the three-block system. *)
Definition K_2 (k : R) : matrix := [[- k; k]; [k; - k]].
Definition K_3 (k12 k23 : R) : matrix :=
  [[- k12; k12; 0]; [k12; - (k12 + k23); k23]; [0; k23; - k23]].

(** [np.identity(D) + Dt * np.matmul(np.linalg.inv(Mconst), K)]: the
    transition matrix [a] (forward Euler). *)
Definition transition (D : nat) (Dt : R) (Mconst K : matrix) : matrix :=
  madd (identity D) (mscale Dt (matmul (linalg_inv Mconst) K)).

(** [inferred_K = np.matmul(Mconst, inferred_A - np.identity(D)) / Dt] *)
Definition inferred_K (D : nat) (Dt : R) (Mconst inferred_A : matrix) : matrix :=
  mdiv (matmul Mconst (msub inferred_A (identity D))) Dt.

(** [inferred_k = (-inferred_K[0, 0] + inferred_K[0, 1] + inferred_K[1, 0]
                   - inferred_K[1, 1]) / 4] *)
Definition inferred_k (inferred_K : matrix) : result R :=
  k00 ← item inferred_K 0 0; k01 ← item inferred_K 0 1;
  k10 ← item inferred_K 1 0; k11 ← item inferred_K 1 1;
  Ok ((- k00 + k01 + k10 - k11) / 4).

(** [inferred_k12 = (-inferred_K[0, 0] + inferred_K[1, 0] + inferred_K[0, 1]) / 3] *)
Definition inferred_k12 (inferred_K : matrix) : result R :=
  k00 ← item inferred_K 0 0; k10 ← item inferred_K 1 0;
  k01 ← item inferred_K 0 1;
  Ok ((- k00 + k10 + k01) / 3).

(** [inferred_k23 = (-inferred_K[2, 2] + inferred_K[2, 1] + inferred_K[1, 2]) / 3] *)
Definition inferred_k23 (inferred_K : matrix) : result R :=
  k22 ← item inferred_K 2 2; k21 ← item inferred_K 2 1;
  k12 ← item inferred_K 1 2;
  Ok ((- k22 + k21 + k12) / 3).

(** *** Synthetic data *)

(** [x[i]] and [x[i] = v] on the rows of a two-dimensional array. *)
Definition getrow (x : list vec) (i : nat) : result vec :=
  match x !! i with
  | Some v => Ok v
  | None => Raise IndexError
  end.

Definition setrow (x : list vec) (i : nat) (v : vec) : result (list vec) :=
  if decide (i < length x)%nat then Ok (<[i := v]> x) else Raise IndexError.

(** The arrays [x] and [y] and the number of normal draws consumed. *)
Record data : Type := mkData {
  arr_x : list vec;
  arr_y : list vec;
  consumed : nat
}.

Section Generator.

(** The successive standard normal draws of numpy's global generator. *)
Variable randn : nat -> R.

(** What [np.empty] happens to hold. *)
Variable uninitialised : nat -> nat -> R.

Definition np_empty (n d : nat) : list vec :=
  map (fun i => map (uninitialised i) (seq 0 d)) (seq 0 n).

(** [np.random.randn(k)] when [pos] draws have been taken. *)
Definition np_random_randn (pos k : nat) : vec := map randn (seq pos k).

(** [[
    x[n + 1] = np.dot(a, x[n]) + std_noise_x * np.random.randn(D)
    y[n + 1] = x[n + 1] + std_noise_y * np.random.randn(M)
]] *)
Definition generate_step (D M : nat) (a : matrix) (std_noise_x std_noise_y : R)
    (st : data) (n : nat) : result data :=
  xn ← getrow (arr_x st) n;
  let r := np_random_randn (consumed st) D in
  x' ← setrow (arr_x st) (n + 1) (vadd (matvec a xn) (vscale std_noise_x r));
  xn1 ← getrow x' (n + 1);
  let s := np_random_randn (consumed st + D) M in
  y' ← setrow (arr_y st) (n + 1) (vadd xn1 (vscale std_noise_y s));
  Ok (mkData x' y' (consumed st + D + M)).

(** [[
x = np.empty((N, D))
y = np.empty((N, M))
x[0] = np.array([x_1_0, x_2_0])
y[0] = x[0] + std_noise_y * np.random.randn(M)
for n in range(N - 1):
    ...
]] *)
Definition generate (N D M : nat) (a : matrix) (x_0 : vec)
    (std_noise_x std_noise_y : R) : result data :=
  let x := np_empty N D in
  let y := np_empty N M in
  x ← setrow x 0 x_0;
  x0 ← getrow x 0;
  y ← setrow y 0 (vadd x0 (vscale std_noise_y (np_random_randn 0 M)));
  for_range (generate_step D M a std_noise_x std_noise_y) (mkData x y M)
    (seq 0 (N - 1)).

(** The process noise [r[n]] and the measurement noise [s[n]] injected at
    step [n]: the slices of the stream that the loop consumes. *)
Definition noise_r (D M n : nat) : vec := np_random_randn (M + n * (D + M)) D.
Definition noise_s (D M n : nat) : vec :=
  match n with
  | O => np_random_randn 0 M
  | S n' => np_random_randn (M + n' * (D + M) + D) M
  end.

End Generator.

(** *** The constants of the two experiments *)

Module Two_blocks.
Definition M : nat := 2.
Definition D : nat := 2.
Definition N : nat := 1001.
Definition Dt : R := 1.
Definition k : R := 5.
Definition mcp_1 : R := 2000.
Definition mcp_2 : R := 1500.
Definition Mconst : matrix := diag [mcp_1; mcp_2].
Definition a : matrix := transition D Dt Mconst (K_2 k).
Definition x_1_0 : R := 270.
Definition x_2_0 : R := 330.
Definition std_noise_x : R := 0.
Definition std_noise_y : R := 1.
Definition simulated (randn : nat -> R) (uninitialised : nat -> nat -> R) : result data :=
  generate randn uninitialised N D M a [x_1_0; x_2_0] std_noise_x std_noise_y.
End Two_blocks.

Module Three_blocks.
Definition M : nat := 3.
Definition D : nat := 3.
Definition N : nat := 1001.
Definition Dt : R := 1.
Definition k12 : R := 5.
Definition k23 : R := 4.
Definition mcp_1 : R := 2000.
Definition mcp_2 : R := 1500.
Definition mcp_3 : R := 2500.
Definition Mconst : matrix := diag [mcp_1; mcp_2; mcp_3].
Definition a : matrix := transition D Dt Mconst (K_3 k12 k23).
Definition x_1_0 : R := 270.
Definition x_2_0 : R := 330.
Definition x_3_0 : R := 320.
Definition std_noise_x : R := 0.
Definition std_noise_y : R := 1.
Definition simulated (randn : nat -> R) (uninitialised : nat -> nat -> R) : result data :=
  generate randn uninitialised N D M a [x_1_0; x_2_0; x_3_0] std_noise_x std_noise_y.
End Three_blocks.

(** *** Heat *)

(** [1^T Mconst x], the heat stored in the blocks at temperatures [x]. *)
Definition ones (D : nat) : vec := replicate D 1.
Definition total_heat (Mconst : matrix) (x : vec) : R :=
  dot (ones (length Mconst)) (matvec Mconst x).

(** *** Vocabulary of the properties *)

(** What holds of the arrays after the first [j] iterations of the loop. *)
Definition generated_upto (randn : nat -> R) (N D : nat) (a : matrix) (x_0 : vec)
    (std_noise_x std_noise_y : R) (j : nat) (st : data) : Prop :=
  length (arr_x st) = N /\ length (arr_y st) = N
  /\ consumed st = (D + j * (D + D))%nat
  /\ arr_x st !! 0%nat = Some x_0
  /\ (forall n, (n < j)%nat -> exists xn,
        arr_x st !! n = Some xn
        /\ arr_x st !! S n
           = Some (vadd (matvec a xn) (vscale std_noise_x (noise_r randn D D n))))
  /\ (forall n, (n <= j)%nat -> exists xn,
        arr_x st !! n = Some xn
        /\ arr_y st !! n
           = Some (vadd xn (vscale std_noise_y (noise_s randn D D n)))).

(** Rows of [a] sum to one, so uniform temperatures are fixed points, and
    [1^T Mconst a = 1^T Mconst], so every noise-free step of the generator
    conserves the stored heat. *)
Definition physical_invariants (D : nat) (Mconst a : matrix) : Prop :=
  Forall (fun row => foldr Rplus 0 row = 1) a
  /\ (forall c, matvec a (replicate D c) = replicate D c)
  /\ vecmat D (ones D) (matmul Mconst a) = vecmat D (ones D) Mconst
  /\ (forall x, length x = D ->
        total_heat Mconst (matvec a x) = total_heat Mconst x)
  /\ (forall (randn : nat -> R) (uninitialised : nat -> nat -> R) N x_0
             std_noise_y st,
        length x_0 = D ->
        generate randn uninitialised N D D a x_0 0 std_noise_y = Ok st ->
        forall n xn xn1,
          arr_x st !! n = Some xn -> arr_x st !! (n + 1)%nat = Some xn1 ->
          total_heat Mconst xn1 = total_heat Mconst xn).

End Explore_VB.

(** ** Explore_MCMC.ipynb (Julia) *)

Module Explore_MCMC.

Open Scope R_scope.

(** [Φ(B, ω, t) = B * sin(ω * t)] *)
Definition Φ (B ω t : R) : R := B * sin (ω * t).

(** [v[i] += x] *)
Definition addindex (v : list R) (x : R) (i : nat) : result (list R) :=
  old ← getindex v i; setindex v (old + x) i.

(** [[
function LSSM_lump(dT, T, p, t)
    mcp_1, mcp_2, mcp_3, A_1, A_2, A_3, B_1, B_2, B_3, ω_1, ω_2, ω_3, T_a, k12, k23, h_a = p
    # Conduction
    dT[1] = k12 * (T[2] - T[1]) / mcp_1
    dT[2] = (k12 * (T[1] - T[2]) + k23 * (T[3] - T[2])) / mcp_2
    dT[3] = k23 * (T[2] - T[3]) / mcp_3
    # Convection
    dT[1] += h_a * A_1 * (T_a - T[1]) / mcp_1
    dT[2] += h_a * A_2 * (T_a - T[2]) / mcp_2
    dT[3] += h_a * A_3 * (T_a - T[3]) / mcp_3
    # Input
    dT[1] += Φ(B_1, ω_1, t) / mcp_1
    dT[2] += Φ(B_2, ω_2, t) / mcp_2
    dT[3] += Φ(B_3, ω_3, t) / mcp_3
end
]]
    The function updates [dT] in place; the model returns the updated
    array.  Destructuring [p] takes its first sixteen entries and throws
    [BoundsError] when there are fewer.  [dT] and [T] are distinct arrays
    (the solver passes its own buffer). *)
Definition LSSM_lump (dT T p : list R) (t : R) : result (list R) :=
  mcp_1 ← getindex p 1; mcp_2 ← getindex p 2; mcp_3 ← getindex p 3;
  A_1 ← getindex p 4; A_2 ← getindex p 5; A_3 ← getindex p 6;
  B_1 ← getindex p 7; B_2 ← getindex p 8; B_3 ← getindex p 9;
  ω_1 ← getindex p 10; ω_2 ← getindex p 11; ω_3 ← getindex p 12;
  T_a ← getindex p 13; k12 ← getindex p 14; k23 ← getindex p 15;
  h_a ← getindex p 16;
  (* Conduction *)
  T2 ← getindex T 2; T1 ← getindex T 1;
  dT ← setindex dT (k12 * (T2 - T1) / mcp_1) 1;
  T1 ← getindex T 1; T2 ← getindex T 2; T3 ← getindex T 3; T2' ← getindex T 2;
  dT ← setindex dT ((k12 * (T1 - T2) + k23 * (T3 - T2')) / mcp_2) 2;
  T2 ← getindex T 2; T3 ← getindex T 3;
  dT ← setindex dT (k23 * (T2 - T3) / mcp_3) 3;
  (* Convection *)
  T1 ← getindex T 1;
  dT ← addindex dT (h_a * A_1 * (T_a - T1) / mcp_1) 1;
  T2 ← getindex T 2;
  dT ← addindex dT (h_a * A_2 * (T_a - T2) / mcp_2) 2;
  T3 ← getindex T 3;
  dT ← addindex dT (h_a * A_3 * (T_a - T3) / mcp_3) 3;
  (* Input *)
  dT ← addindex dT (Φ B_1 ω_1 t / mcp_1) 1;
  dT ← addindex dT (Φ B_2 ω_2 t / mcp_2) 2;
  addindex dT (Φ B_3 ω_3 t / mcp_3) 3.

(** [MSE(true_θ, post_mean, post_var) = (post_mean - true_θ)^2 + post_var] *)
Definition MSE (true_θ post_mean post_var : R) : R :=
  (post_mean - true_θ) ^ 2 + post_var.

(** *** Vocabulary of the properties *)

(** The parameter vector [p], by the names the function gives its entries. *)
Record parameters : Type := mkParameters {
  mcp_1 : R; mcp_2 : R; mcp_3 : R;
  A_1 : R; A_2 : R; A_3 : R;
  B_1 : R; B_2 : R; B_3 : R;
  ω_1 : R; ω_2 : R; ω_3 : R;
  T_a : R; k12 : R; k23 : R; h_a : R
}.

Definition to_vector (q : parameters) : list R :=
  [mcp_1 q; mcp_2 q; mcp_3 q; A_1 q; A_2 q; A_3 q; B_1 q; B_2 q; B_3 q;
   ω_1 q; ω_2 q; ω_3 q; T_a q; k12 q; k23 q; h_a q].

(** The lumped thermal model as the specification words it. *)
Definition lumped_thermal_model (q : parameters) (T1 T2 T3 t : R) : list R :=
  [(k12 q * (T2 - T1) + h_a q * A_1 q * (T_a q - T1) + B_1 q * sin (ω_1 q * t))
     / mcp_1 q;
   (k12 q * (T1 - T2) + k23 q * (T3 - T2) + h_a q * A_2 q * (T_a q - T2)
      + B_2 q * sin (ω_2 q * t)) / mcp_2 q;
   (k23 q * (T2 - T3) + h_a q * A_3 q * (T_a q - T3) + B_3 q * sin (ω_3 q * t))
     / mcp_3 q].

(** Its three terms: conduction [M^-1 K T], convection and input heat. *)
Definition conduction (q : parameters) (T : list R) : list R :=
  Explore_VB.matvec
    (Explore_VB.matmul
       (Explore_VB.linalg_inv (Explore_VB.diag [mcp_1 q; mcp_2 q; mcp_3 q]))
       (Explore_VB.K_3 (k12 q) (k23 q))) T.

Definition convection (q : parameters) (T1 T2 T3 : R) : list R :=
  [h_a q * A_1 q * (T_a q - T1) / mcp_1 q;
   h_a q * A_2 q * (T_a q - T2) / mcp_2 q;
   h_a q * A_3 q * (T_a q - T3) / mcp_3 q].

Definition input_heat (q : parameters) (t : R) : list R :=
  [B_1 q * sin (ω_1 q * t) / mcp_1 q;
   B_2 q * sin (ω_2 q * t) / mcp_2 q;
   B_3 q * sin (ω_3 q * t) / mcp_3 q].

End Explore_MCMC.

(** ** Explore_UKF.ipynb (Julia) *)

Module Explore_UKF.

Open Scope R_scope.

(** [real_θ = 1 - Δt * h_a * A / (m * cp)] *)
Definition real_θ (Δt h_a A m cp : R) : R := 1 - Δt * h_a * A / (m * cp).

Definition zeros (n : nat) : list R := replicate n 0.

(** The body of the simulation loop:
    [T_[n + 1] = real_θ * T_[n] + (1 - real_θ) * T_a]. *)
Definition cooling_step (real_θ T_a : R) (T_ : list R) (n : nat)
    : result (list R) :=
  Tn ← getindex T_ n; setindex T_ (real_θ * Tn + (1 - real_θ) * T_a) (n + 1).

(** [[
T_ = zeros(N + 1)
T_[1] = 255.
for n = 1:N
    T_[n + 1] = real_θ * T_[n] + (1 - real_θ) * T_a
end
]] *)
Definition simulate (N : nat) (real_θ T_a T_1 : R) : result (list R) :=
  T_ ← setindex (zeros (N + 1)) T_1 1;
  for_range (cooling_step real_θ T_a) T_ (seq 1 N).

(** The constants of the notebook. *)
Definition N : nat := 200.
Definition Δt : R := 50.
Definition m : R := 6 / 10.
Definition cp : R := 1500.
Definition A : R := 5 / 100.
Definition T_a : R := 297.
Definition T_1 : R := 255.
Definition h_a : R := 10.

(** The simulated temperatures for a transition coefficient [θ]. *)
Definition T_ (N : nat) (θ : R) : result (list R) := simulate N θ T_a T_1.

(** [generate_data(rng, n, states, τ) = states + randn(rng, n) * inv(sqrt(τ))]

    [randn(rng, n)] takes the next [n] draws of [rng] (a negative [n] is an
    [ArgumentError]); [sqrt] of a negative float throws [DomainError]; [+]
    on vectors of different lengths throws [DimensionMismatch].  Arguments
    are evaluated left to right, so the draws are taken before [sqrt] can
    throw.  The result comes with the new position of [rng]. *)
Definition generate_data (randn : nat -> R) (pos : nat) (n : Z)
    (states : list R) (τ : R) : result (list R) * nat :=
  if decide (n < 0)%Z then (Raise ArgumentError, pos)
  else
    let noise := map randn (seq pos (Z.to_nat n)) in
    let pos' := (pos + Z.to_nat n)%nat in
    if Rlt_dec τ 0 then (Raise DomainError, pos')
    else
      let scaled := map (fun e => e * / sqrt τ) noise in
      if decide (length states = length scaled)
      then (Ok (zip_with Rplus states scaled), pos')
      else (Raise DimensionMismatch, pos').

(** [MSE(true_θ, post_mean, post_var) = (post_mean - true_θ)^2 + post_var] *)
Definition MSE (true_θ post_mean post_var : R) : R :=
  (post_mean - true_θ) ^ 2 + post_var.

(** *** Vocabulary of the properties *)

(** After the iterations [n = 1..j] of the simulation the first [j + 1]
    entries follow the closed form. *)
Definition cooled_upto (N : nat) (θ T_a T_1 : R) (j : nat) (T_ : list R) : Prop :=
  length T_ = S N
  /\ forall i, (i <= j)%nat -> T_ !! i = Some (T_a + θ ^ i * (T_1 - T_a)).

End Explore_UKF.

(** * The remaining functions of the notebooks *)

(** ** Bayesics_Coin.ipynb: the animation and the comparison of strategies *)

Module Bayesics_Coin_rest.

Import Bayesics_Coin.
Open Scope Z_scope.

(** [[
function make_gif_recursive(prior, data::Vector{Bool}, p_true)
    post = prior
    @gif for (n, y) ∈ enumerate(data)
        post = post_recursive(post, y)
        plot(Beta(post[1], post[2]); ..., title = "Posterior after $n observations", ...)
        vline!([p_true])
    end
end
]]
    The animation is the list of its frames: the number [n] in the title and
    the distribution that is plotted.  [p_true] only positions a vertical
    line. *)
Fixpoint make_gif_recursive_loop (post : list Z) (n : nat) (data : list bool)
    (shown : list (nat * BetaDist)) : result (list (nat * BetaDist)) :=
  match data with
  | [] => Ok shown
  | y :: data' =>
      post' ← post_recursive post y;
      a ← getindex post' 1; b ← getindex post' 2;
      dist ← Beta a b;
      make_gif_recursive_loop post' (S n) data' (shown ++ [(n, dist)])
  end.

Definition make_gif_recursive (prior : list Z) (data : list bool)
    : result (list (nat * BetaDist)) :=
  make_gif_recursive_loop prior 1 data [].

(** A parameter vector that [Beta(post[1], post[2])] accepts. *)
Definition plottable (post : list Z) : Prop :=
  exists a b rest, post = a :: b :: rest /\ 0 < a /\ 0 < b.

Section Strategies.

Variable quantile : BetaDist -> Q -> Q.
Variable uniform : nat -> Q.

(** The integer that the generator produces at a position of its stream
    when asked for a random index. *)
Variable raw_index : nat -> nat.

(** [rand(true_ps)]: an element at a random index; an empty collection is an
    [ArgumentError]. *)
Definition rand_element (true_ps : list Q) : M Q := fun w =>
  match true_ps with
  | [] => (Raise ArgumentError, w)
  | p0 :: _ =>
      (Ok (nth (raw_index (drawn w) mod length true_ps) true_ps p0),
       mkWorld (heap w) (S (drawn w)) (frames w))
  end.

(** [[
function random_selection(true_ps, sample_size)
    successes = 0
    for _ in 1:sample_size
        p_cur = rand(true_ps)
        successes += rand(Bernoulli(p_cur))
    end
    return successes / sample_size
end
]] *)
Fixpoint random_selection_loop (n : nat) (true_ps : list Q) (successes : Z)
    : M Z :=
  match n with
  | O => mret successes
  | S n' =>
      p_cur ← rand_element true_ps;
      d ← lift (Bernoulli p_cur);
      success ← rand_Bernoulli uniform d;
      random_selection_loop n' true_ps (add64 successes (of_bool success))
  end.

Definition random_selection (true_ps : list Q) (sample_size : Z) : M float :=
  successes ← random_selection_loop (Z.to_nat sample_size) true_ps 0;
  mret (int_div successes sample_size).

(** [Vector{Float64}(undef, n)]: entries without a value yet; a negative
    length is an [ArgumentError]. *)
Definition undef_vector (n : Z) : result (list (option float)) :=
  if decide (n < 0) then Raise ArgumentError
  else Ok (replicate (Z.to_nat n) None).

(** [[
function plot_dists_strategies_multi(priors, true_ps, sample_size, number_tests)
    dist_random = Vector{Float64}(undef, number_tests)
    dist_explore_exploit = Vector{Float64}(undef, number_tests)
    for n ∈ 1:number_tests
        dist_random[n] = random_selection(true_ps, sample_size)
        dist_explore_exploit[n] = explore_and_exploit(priors, true_ps, sample_size)
    end
    p_dists = histogram(dist_random, ...)
    histogram!(p_dists, dist_explore_exploit, ...)
    vline!(p_dists, [true_ps], ...)
end
]]
    The model returns the two arrays that are handed to [histogram]. *)
Fixpoint plot_dists_strategies_multi_loop (k n : nat) (priors : loc)
    (true_ps : list Q) (sample_size : Z)
    (dist_random dist_explore_exploit : list (option float))
    : M (list (option float) * list (option float)) :=
  match k with
  | O => mret (dist_random, dist_explore_exploit)
  | S k' =>
      r ← random_selection true_ps sample_size;
      dist_random ← lift (setindex dist_random (Some r) n);
      e ← explore_and_exploit quantile uniform priors true_ps sample_size;
      dist_explore_exploit ← lift (setindex dist_explore_exploit (Some e) n);
      plot_dists_strategies_multi_loop k' (S n) priors true_ps sample_size
        dist_random dist_explore_exploit
  end.

Definition plot_dists_strategies_multi (priors : loc) (true_ps : list Q)
    (sample_size number_tests : Z)
    : M (list (option float) * list (option float)) :=
  dist_random ← lift (undef_vector number_tests);
  dist_explore_exploit ← lift (undef_vector number_tests);
  plot_dists_strategies_multi_loop (Z.to_nat number_tests) 1 priors true_ps
    sample_size dist_random dist_explore_exploit.

End Strategies.

(** *** Vocabulary of the properties *)

(** The body of the comprehension of [choose_arm]:
    [Beta(post[1], post[2])]. *)
Definition Beta_of_post (post : list Z) : result BetaDist :=
  a ← getindex post 1; b ← getindex post 2; Beta a b.

(** [r] refers to a pair of positive parameters that are at most [bound]. *)
Definition valid_arm (bound : Z) (h : gmap loc object) (r : loc) : Prop :=
  exists a b, h !! r = Some (VecInt [a; b]) /\ 0 < a <= bound /\ 0 < b <= bound.

(** [l] holds a nonempty vector of at most [n_ps] valid arms. *)
Definition valid_arms (bound : Z) (n_ps : nat) (h : gmap loc object) (l : loc)
    : Prop :=
  exists rs, h !! l = Some (VecVec rs) /\ rs <> []
             /\ (length rs <= n_ps)%nat /\ Forall (valid_arm bound h) rs.

(** Every entry of [true_ps] is a probability. *)
Definition probabilities (true_ps : list Q) : Prop :=
  Forall (fun p => (0 <= p <= 1)%Q) true_ps.

(** An average gain: a fraction between 0 and 1. *)
Definition gain (x : float) : Prop :=
  exists q, x = Finite q /\ (0 <= q <= 1)%Q.

(** The number of observations recorded in a family of parameter vectors,
    prior pseudo-counts included: the sum of all parameters. *)
Definition total_count (vals : list (list Z)) : Z :=
  foldr Z.add 0 (map (foldr Z.add 0) vals).

End Bayesics_Coin_rest.

(** ** Explore_MCMC.ipynb: the time axis and the sampled trajectories *)

Module Explore_MCMC_rest.

Import Explore_MCMC.

(** *** The time horizon and the tick labels (Int64 arithmetic) *)

Definition mul64 (a b : Z) : Z := Bayesics_Coin.wrap64 (a * b).

(** The range [lo:hi]; it is empty when [hi < lo]. *)
Definition range (lo hi : Z) : list Z :=
  map (fun i => (lo + Z.of_nat i)%Z) (seq 0 (Z.to_nat (hi - lo + 1))).

(** [time = [Δ * i for i in 0:sample_size]] *)
Definition time (sample_size Δ : Z) : list Z :=
  map (fun i => mul64 Δ i) (range 0 sample_size).

(** [v[i] = x] for an index computed in [Int]. *)
Definition setindex_int {A} (v : list A) (x : A) (i : Z) : result (list A) :=
  if decide (1 <= i)%Z then setindex v x (Z.to_nat i) else Raise BoundsError.

Section Labels.

(** [string(n)] for [n :: Int]. *)
Variable string : Z -> String.string.

(** [[
time_axis = Vector{String}(undef, sample_size + 1)
time_axis .= ""
steps = 5
step = div(sample_size, steps)
for i ∈ 0:steps
    time_axis[i * step + 1] = string(i * step * Δ)
end
]]
    [steps] is the literal 5; the model takes any positive number.  A
    vector of negative length is an [ArgumentError]; [div] truncates. *)
Definition time_axis_step (step Δ : Z) (time_axis : list String.string) (i : Z)
    : result (list String.string) :=
  setindex_int time_axis (string (mul64 (mul64 i step) Δ))
    (Bayesics_Coin.add64 (mul64 i step) 1).

Fixpoint time_axis_loop (step Δ : Z) (time_axis : list String.string)
    (indices : list Z) : result (list String.string) :=
  match indices with
  | [] => Ok time_axis
  | i :: indices' =>
      time_axis ← time_axis_step step Δ time_axis i;
      time_axis_loop step Δ time_axis indices'
  end.

Definition time_axis (sample_size Δ : Z) (steps : positive)
    : result (list String.string) :=
  let n := Bayesics_Coin.add64 sample_size 1 in
  if decide (n < 0)%Z then Raise ArgumentError
  else
    let time_axis := replicate (Z.to_nat n) String.EmptyString in
    let step := Z.quot sample_size (Z.pos steps) in
    time_axis_loop step Δ time_axis (range 0 (Z.pos steps)).

End Labels.

Open Scope R_scope.

(** *** The parameters handed to the solver *)

(** The deterministic part of the probabilistic model:
[[
    T_a, mcp_1, mcp_2, mcp_3, A_1, A_2, A_3, B_1, B_2, B_3, ω_1, ω_2, ω_3, Δ = syst_consts
    p = [mcp_1, mcp_2, mcp_3, A_1, A_2, A_3, B_1, B_2, B_3, ω_1, ω_2, ω_3, T_a, k12, k23, h_a]
    predicted = solve(system, Tsit5(); p = p, saveat = Δ, verbose = false)
]]
    for sampled values of [k12], [k23] and [h_a]: the vector [p] and the
    step [Δ] that [solve] receives. *)
Definition fit_LSSM_lump_p (syst_consts : list R) (k12 k23 h_a : R)
    : result (list R * R) :=
  T_a ← getindex syst_consts 1;
  mcp_1 ← getindex syst_consts 2; mcp_2 ← getindex syst_consts 3;
  mcp_3 ← getindex syst_consts 4;
  A_1 ← getindex syst_consts 5; A_2 ← getindex syst_consts 6;
  A_3 ← getindex syst_consts 7;
  B_1 ← getindex syst_consts 8; B_2 ← getindex syst_consts 9;
  B_3 ← getindex syst_consts 10;
  ω_1 ← getindex syst_consts 11; ω_2 ← getindex syst_consts 12;
  ω_3 ← getindex syst_consts 13;
  Δ ← getindex syst_consts 14;
  Ok ([mcp_1; mcp_2; mcp_3; A_1; A_2; A_3; B_1; B_2; B_3; ω_1; ω_2; ω_3;
       T_a; k12; k23; h_a], Δ).

(** The indices [(end - id_count):end] of a vector of length [len]: the
    offset of the first one and their number.  The range is empty for a
    negative [id_count] (an empty range is always in bounds) and leaves the
    vector when [id_count >= len]. *)
Definition tail_range (len : nat) (id_count : Z) : result (nat * nat) :=
  if decide (id_count < 0)%Z then Ok (len, 0%nat)
  else if decide (id_count < Z.of_nat len)%Z
       then Ok ((len - 1 - Z.to_nat id_count)%nat, S (Z.to_nat id_count))
       else Raise BoundsError.

(** [params_cur[(end - id_count):end] .= params_row[(end - id_count):end]]:
    the view on the left is taken first, then the slice on the right is
    copied into it. *)
Definition assign_tail (params_cur params_row : list R) (id_count : Z)
    : result (list R) :=
  '(lo, _) ← tail_range (length params_cur) id_count;
  '(lo_row, n_row) ← tail_range (length params_row) id_count;
  Ok (list_inserts lo (take n_row (drop lo_row params_row)) params_cur).

(** [[
function sampled_traj_plot(params_samples, solution, data, horizon, time_step, all_params, id_count, system, obs_slices = nothing)
    ...
    params_cur = copy(all_params)
    for (i, params_row) ∈ enumerate(eachrow(params_samples))
        params_cur[(end - id_count):end] .= params_row[(end - id_count):end]
        traj_cur = solve(system, Tsit5(); p = params_cur, saveat = time_step)
        ...
    end
    ...
end
]]
    The solver and the plotting belong to libraries: the model returns the
    parameter vectors that [solve] is called with, in order.  [params_cur]
    is one array that every iteration overwrites in place. *)
Fixpoint sampled_traj_plot_loop (params_cur : list R) (rows : list (list R))
    (id_count : Z) (solved : list (list R)) : result (list (list R)) :=
  match rows with
  | [] => Ok solved
  | params_row :: rows' =>
      params_cur ← assign_tail params_cur params_row id_count;
      sampled_traj_plot_loop params_cur rows' id_count (solved ++ [params_cur])
  end.

Definition sampled_traj_plot (params_samples : list (list R)) (all_params : list R)
    (id_count : Z) : result (list (list R)) :=
  let params_cur := all_params in
  sampled_traj_plot_loop params_cur params_samples id_count [].

(** *** The constants of the notebook *)

Definition true_p : parameters :=
  mkParameters 2000 1500 2500 1 1 1 300 (-300) 150
    (3 / 100) (24 / 1000) (38 / 1000) 290 5 4 2.

(** The constants handed to [fit_LSSM_lump] for the parameters [q] and the
    step [Δ]:
    [[true_T_a, true_mcp_1, ..., true_ω_3, Δ]]. *)
Definition syst_consts (q : parameters) (Δ : R) : list R :=
  [T_a q; mcp_1 q; mcp_2 q; mcp_3 q; A_1 q; A_2 q; A_3 q; B_1 q; B_2 q; B_3 q;
   ω_1 q; ω_2 q; ω_3 q; Δ].

(** [q] with sampled values for the three unknown parameters. *)
Definition with_sample (q : parameters) (k12 k23 h_a : R) : parameters :=
  mkParameters (mcp_1 q) (mcp_2 q) (mcp_3 q) (A_1 q) (A_2 q) (A_3 q)
    (B_1 q) (B_2 q) (B_3 q) (ω_1 q) (ω_2 q) (ω_3 q) (T_a q) k12 k23 h_a.

(** A stand-in for [string], used to run the model on examples: the one
    character with the code [n]. *)
Definition string_stub (n : Z) : String.string :=
  String.String (Ascii.ascii_of_N (Z.to_N n)) String.EmptyString.

End Explore_MCMC_rest.
(** * Properties *)

(** Evaluate the array operations on arrays of known shape, leaving the
    real arithmetic in place. *)
Ltac compute_arrays := cbv -[Rplus Rmult Rminus Ropp Rinv Rdiv IZR sin pow].

(** Split an equation between arrays of known shape into its entries. *)
Ltac entrywise :=
  repeat match goal with
         | |- Ok _ = Ok _ => f_equal
         | |- _ :: _ = _ :: _ => f_equal
         end.

(** ** Indexing *)

Lemma getindex_Ok {A} (v : list A) (i : nat) x :
  getindex v i = Ok x <-> (exists j, i = S j /\ v !! j = Some x).
Proof.
  destruct i as [|j]; simpl.
  - split; [discriminate | intros (j & Hj & _); discriminate].
  - destruct (v !! j) eqn:E; split.
    + intros [= ->]. eauto.
    + intros (j' & [= <-] & H). congruence.
    + discriminate.
    + intros (j' & [= <-] & H). congruence.
Qed.

Lemma setindex_Ok {A} (v : list A) x i :
  (1 <= i <= length v)%nat -> setindex v x i = Ok (<[pred i := x]> v).
Proof.
  intros [H1 H2]. destruct i as [|j]; [lia |]. simpl.
  case_decide; [done | lia].
Qed.

(** ** Bayesics_Coin.ipynb *)

Section Coin_facts.
Import Bayesics_Coin.
Open Scope Z_scope.

(** *** Facts on Int64 *)

Lemma wrap64_in_range z : in_int64 z -> wrap64 z = z.
Proof.
  unfold in_int64, wrap64. intros H.
  rewrite Z.mod_small; lia.
Qed.

Lemma wrap64_add_l a b : wrap64 (wrap64 a + b) = wrap64 (a + b).
Proof.
  unfold wrap64. f_equal.
  replace ((a + 2 ^ 63) mod 2 ^ 64 - 2 ^ 63 + b + 2 ^ 63)
    with ((a + 2 ^ 63) mod 2 ^ 64 + b) by lia.
  rewrite Zplus_mod_idemp_l. f_equal. lia.
Qed.

Lemma wrap64_add_r a b : wrap64 (a + wrap64 b) = wrap64 (a + b).
Proof. rewrite (Z.add_comm a), wrap64_add_l. f_equal. lia. Qed.

Lemma wrap64_sub_l a b : wrap64 (wrap64 a - b) = wrap64 (a - b).
Proof. unfold Z.sub. apply wrap64_add_l. Qed.

Lemma wrap64_sub_r a b : wrap64 (a - wrap64 b) = wrap64 (a - b).
Proof.
  unfold wrap64.
  replace (a - ((b + 2 ^ 63) mod 2 ^ 64 - 2 ^ 63) + 2 ^ 63)
    with (a + 2 ^ 64 - (b + 2 ^ 63) mod 2 ^ 64) by lia.
  f_equal. rewrite Zminus_mod_idemp_r. 
  replace (a + 2 ^ 64 - (b + 2 ^ 63)) with (a - b + 2 ^ 63) by lia. done.
Qed.

Lemma n_true_false data : n_true data + n_false data = Z.of_nat (length data).
Proof.
  unfold n_true, n_false. induction data as [|[] data IH]; simpl in *; lia.
Qed.

Lemma foldl_add64 acc data :
  foldl add64 (wrap64 acc) (of_bool <$> data) = wrap64 (acc + n_true data).
Proof.
  revert acc. induction data as [|y data IH]; intros acc; simpl.
  - unfold n_true; simpl. f_equal. lia.
  - unfold add64 at 2. rewrite wrap64_add_l, IH. f_equal.
    unfold n_true. destruct y; simpl; lia.
Qed.

Lemma sum_n_true data : sum data = wrap64 (n_true data).
Proof.
  unfold sum. change 0 with (wrap64 0) at 1.
  - by rewrite foldl_add64.
Qed.

Lemma post_recursive_pair a b y :
  post_recursive [a; b] y = Ok [add64 a (of_bool y); add64 b (sub64 1 (of_bool y))].
Proof. reflexivity. Qed.

Lemma post_batch_pair a b data :
  post_batch [a; b] data =
  Ok [wrap64 (a + n_true data); wrap64 (b + n_false data)].
Proof.
  unfold post_batch, broadcast_add. simpl. unfold add64, sub64, length64.
  rewrite sum_n_true, wrap64_sub_l, wrap64_sub_r, !wrap64_add_r.
  do 3 f_equal. pose proof (n_true_false data). f_equal. lia.
Qed.

Lemma filter_recursive_pair data : forall a b,
  filter_recursive [wrap64 a; wrap64 b] data =
  Ok [wrap64 (a + n_true data); wrap64 (b + n_false data)].
Proof.
  induction data as [|y data IH]; intros a b.
  - unfold n_true, n_false; simpl. by rewrite !Z.add_0_r.
  - cbn [filter_recursive]. rewrite post_recursive_pair. cbn [mbind result_bind].
    unfold add64, sub64. rewrite !wrap64_add_l, wrap64_add_r, IH.
    unfold n_true, n_false.
    destruct y; simpl; f_equal; f_equal; [f_equal; lia | do 2 f_equal; lia ..].
Qed.

(** C8.  Batch and recursive conjugate updating coincide: for every prior
    pair [[alpha, beta]] of [Int64] values and every vector of Boolean
    observations, [post_batch] equals the left fold of [post_recursive] over
    the data; both yield [[alpha + #true, beta + #false]], the sums being
    Julia's [Int64] sums (exact integer sums whenever these fit in 64 bits). *)
Theorem post_batch_filter_recursive (alpha beta : Z) (data : list bool) :
  in_int64 alpha -> in_int64 beta ->
  post_batch [alpha; beta] data = filter_recursive [alpha; beta] data
  /\ post_batch [alpha; beta] data
     = Ok [add64 alpha (n_true data); add64 beta (n_false data)]
  /\ (in_int64 (alpha + n_true data) -> in_int64 (beta + n_false data) ->
      filter_recursive [alpha; beta] data
      = Ok [alpha + n_true data; beta + n_false data]).
Proof.
  intros Ha Hb.
  pose proof (filter_recursive_pair data alpha beta) as Hrec.
  rewrite (wrap64_in_range alpha Ha), (wrap64_in_range beta Hb) in Hrec.
  rewrite Hrec, post_batch_pair. repeat split.
  intros Ha' Hb'. by rewrite (wrap64_in_range _ Ha'), (wrap64_in_range _ Hb').
Qed.

Lemma post_batch_filter_recursive_witness :
  post_batch [1; 1] [true; false; true] = filter_recursive [1; 1] [true; false; true]
  /\ post_batch [1; 1] [true; false; true]
     = Ok [add64 1 (n_true [true; false; true]); add64 1 (n_false [true; false; true])]
  /\ (in_int64 (1 + n_true [true; false; true]) ->
      in_int64 (1 + n_false [true; false; true]) ->
      filter_recursive [1; 1] [true; false; true]
      = Ok [1 + n_true [true; false; true]; 1 + n_false [true; false; true]]).
Proof.
  apply (post_batch_filter_recursive 1 1 [true; false; true]);
    unfold in_int64; lia.
Defined.

Example post_batch_example : post_batch [1; 1] [true; false; true] = Ok [3; 2].
Proof. vm_compute. reflexivity. Qed.

(** At the top of the range the posterior parameter wraps around. *)
Example post_recursive_wraps :
  post_recursive [2 ^ 63 - 1; 1] true = Ok [- 2 ^ 63; 1].
Proof. vm_compute. reflexivity. Qed.


(** *** [choose_arm] picks the first arm of maximal upper credible bound *)

Lemma isless_lt a b : isless a b = true <-> (a < b)%Q.
Proof.
  unfold isless. rewrite negb_true_iff, <- not_true_iff_false, Qle_bool_iff.
  split; [apply Qnot_le_lt | apply Qlt_not_le].
Qed.

Lemma isless_ge a b : isless a b = false <-> (b <= a)%Q.
Proof.
  unfold isless. rewrite negb_false_iff. apply Qle_bool_iff.
Qed.

Lemma findmax_from_spec (l : list Q) : forall best ibest i,
  let r := findmax_from best ibest i l in
  (best <= r.1)%Q
  /\ Forall (fun x => (x <= r.1)%Q) l
  /\ (r = (best, ibest)
      \/ exists k, r.2 = (i + k)%nat /\ l !! k = Some r.1 /\ (best < r.1)%Q
           /\ forall k' x, (k' < k)%nat -> l !! k' = Some x -> (x < r.1)%Q).
Proof.
  induction l as [|x l IH]; intros best ibest i; cbn [findmax_from].
  - cbn zeta. split; [apply Qle_refl |]. split; [constructor | by left].
  - destruct (isless best x) eqn:E.
    + apply isless_lt in E.
      destruct (IH x i (S i)) as (Hle & Hall & Hcase). cbn zeta in *.
      set (r := findmax_from x i (S i) l) in *.
      split; [eapply Qle_trans; [apply Qlt_le_weak, E | exact Hle] |].
      split; [by constructor |]. right.
      destruct Hcase as [Hr | (k & Hk & Hlook & Hlt & Hbefore)].
      * exists 0%nat. rewrite Hr. simpl. repeat split; [lia | done |].
        intros k' y Hk'. lia.
      * exists (S k). repeat split; [lia | done | by eapply Qlt_trans |].
        intros [|k'] y Hk' Hy; simpl in Hy.
        -- by injection Hy as <-.
        -- apply (Hbefore k' y); [lia | done].
    + apply isless_ge in E.
      destruct (IH best ibest (S i)) as (Hle & Hall & Hcase). cbn zeta in *.
      set (r := findmax_from best ibest (S i) l) in *.
      split; [done |].
      split; [constructor; [by eapply Qle_trans | done] |].
      destruct Hcase as [Hr | (k & Hk & Hlook & Hlt & Hbefore)]; [by left |].
      right. exists (S k). repeat split; [lia | done | done |].
      intros [|k'] y Hk' Hy; simpl in Hy.
      * injection Hy as <-. by eapply Qle_lt_trans.
      * apply (Hbefore k' y); [lia | done].
Qed.

Section Bandit_facts.

Variable quantile : BetaDist -> Q -> Q.


Lemma dists_of_params (posts : list (list Z)) :
  Forall Beta_params posts ->
  mapM (fun post => a ← getindex post 1; b ← getindex post 2; Beta a b) posts
  = Ok (map dist_of posts).
Proof.
  induction 1 as [|post posts (a & b & -> & Ha & Hb) _ IH]; [done |].
  cbn [mapM]. rewrite IH. simpl. unfold Beta.
  case_decide as Hd; [done | lia].
Qed.

Lemma tops_of_params (posts : list (list Z)) :
  Forall Beta_params posts ->
  map (fun dist => quantile dist (39 # 40)) (map dist_of posts)
  = map (cred_int_top quantile) posts.
Proof.
  induction 1 as [|post posts (a & b & -> & Ha & Hb) _ IH]; [done |].
  simpl. by rewrite IH.
Qed.

(** C10.  For every nonempty list of posterior parameter pairs
    [choose_arm] returns the smallest index that attains the maximal 97.5 %
    quantile of the corresponding Beta distributions: the returned arm lies
    between 1 and the number of arms, no arm has a larger quantile, every
    earlier arm has a strictly smaller one; as a function of [posts] alone
    it returns the same arm for equal inputs (ties go to the first maximal
    arm, never to a random one). *)
Theorem choose_arm_first_maximal (posts : list (list Z)) :
  posts <> [] -> Forall Beta_params posts ->
  exists arm post,
    choose_arm quantile posts = Ok arm
    /\ (1 <= arm <= length posts)%nat
    /\ getindex posts arm = Ok post
    /\ (forall j other, getindex posts j = Ok other ->
          (cred_int_top quantile other <= cred_int_top quantile post)%Q)
    /\ (forall j other, (j < arm)%nat -> getindex posts j = Ok other ->
          (cred_int_top quantile other < cred_int_top quantile post)%Q)
    /\ (forall posts', posts' = posts ->
          choose_arm quantile posts' = Ok arm).
Proof.
  intros Hne Hall. destruct posts as [|p1 rest]; [done |].
  set (top := cred_int_top quantile).
  set (r := findmax_from (top p1) 1 2 (map top rest)).
  assert (Hchoose : choose_arm quantile (p1 :: rest) = Ok r.2).
  { unfold choose_arm.
    rewrite (dists_of_params _ Hall). cbn [mbind result_bind].
    by rewrite (tops_of_params _ Hall). }
  destruct (findmax_from_spec (map top rest) (top p1) 1 2)
    as (Hle & Hmax & Hcase). cbn zeta in *. fold r in Hle, Hmax, Hcase.
  assert (Hdet : forall arm post,
    r.2 = arm -> getindex (p1 :: rest) arm = Ok post -> top post = r.1 ->
    (forall j other, (j < arm)%nat -> getindex (p1 :: rest) j = Ok other ->
       (top other < top post)%Q) ->
    (1 <= arm <= length (p1 :: rest))%nat
    /\ getindex (p1 :: rest) arm = Ok post
    /\ (forall j other, getindex (p1 :: rest) j = Ok other ->
          (top other <= top post)%Q)
    /\ (forall j other, (j < arm)%nat -> getindex (p1 :: rest) j = Ok other ->
          (top other < top post)%Q)).
  { intros arm post Harm Hget Htop Hbefore.
    split; [| split; [done | split; [| done]]].
    - apply getindex_Ok in Hget as (j & -> & Hj).
      apply lookup_lt_Some in Hj. lia.
    - intros j other Hother. rewrite Htop.
      apply getindex_Ok in Hother as ([|j'] & -> & Hj); simpl in Hj.
      + by injection Hj as <-.
      + rewrite Forall_forall in Hmax. apply Hmax.
        apply list_elem_of_In, in_map_iff. exists other. split; [done |].
        apply list_elem_of_In. by eapply list_elem_of_lookup_2. }
  destruct Hcase as [Hr | (k & Hk & Hlook & Hlt & Hbefore)].
  - exists 1%nat, p1. split; [by rewrite Hchoose, Hr |].
    destruct (Hdet 1%nat p1) as (H1 & H2 & H3 & H4);
      [by rewrite Hr | done | by rewrite Hr | |].
    + intros j other Hj Hother. destruct j; [discriminate | lia].
    + repeat split; try done; try lia.
      intros posts' ->. by rewrite Hchoose, Hr.
  - change (map top rest !! k) with ((top <$> rest) !! k) in Hlook.
    rewrite list_lookup_fmap in Hlook.
    destruct (rest !! k) as [post|] eqn:Ek; [|discriminate].
    injection Hlook as Htop.
    exists (2 + k)%nat, post. split; [by rewrite Hchoose, Hk |].
    destruct (Hdet (2 + k)%nat post) as (H1 & H2 & H3 & H4);
      [done | by simpl; rewrite Ek | done | |].
    + intros j other Hj Hother. rewrite Htop.
      apply getindex_Ok in Hother as ([|j'] & -> & Hj'); simpl in Hj'.
      * by injection Hj' as <-.
      * apply (Hbefore j' (top other)); [lia |].
        change (map top rest !! j') with ((top <$> rest) !! j').
        by rewrite list_lookup_fmap, Hj'.
    + repeat split; try done; try lia.
      intros posts' ->. by rewrite Hchoose, Hk.
Qed.

End Bandit_facts.

Lemma choose_arm_first_maximal_witness :
  let posts := [[1; 1]; [2; 1]; [2; 1]] in
  exists arm post,
    choose_arm mean_stub posts = Ok arm
    /\ (1 <= arm <= length posts)%nat
    /\ getindex posts arm = Ok post
    /\ (forall j other, getindex posts j = Ok other ->
          (cred_int_top mean_stub other <= cred_int_top mean_stub post)%Q)
    /\ (forall j other, (j < arm)%nat -> getindex posts j = Ok other ->
          (cred_int_top mean_stub other < cred_int_top mean_stub post)%Q)
    /\ (forall posts', posts' = posts -> choose_arm mean_stub posts' = Ok arm).
Proof.
  apply (choose_arm_first_maximal mean_stub [[1; 1]; [2; 1]; [2; 1]]).
  - discriminate.
  - repeat (constructor; [eexists _, _; split; [reflexivity | lia] |]).
    constructor.
Defined.

Example choose_arm_later_maximum :
  choose_arm mean_stub [[1; 1]; [2; 1]; [2; 1]] = Ok 2%nat.
Proof. vm_compute. reflexivity. Qed.

(** Equal quantiles, written with different denominators: the first arm. *)
Example choose_arm_tie :
  choose_arm mean_stub [[1; 1]; [2; 2]; [1; 1]] = Ok 1%nat.
Proof. vm_compute. reflexivity. Qed.

Example choose_arm_no_arms : choose_arm mean_stub [] = Raise ArgumentError.
Proof. reflexivity. Qed.

Example choose_arm_bad_parameter :
  choose_arm mean_stub [[1; 1]; [1; 0]] = Raise DomainError.
Proof. vm_compute. reflexivity. Qed.

(** *** The store is framed by the bandit simulations *)


Lemma preserves_ret {A} h0 (a : A) : preserves h0 (mret a).
Proof. intros w Hw. exact Hw. Qed.

Lemma preserves_lift {A} h0 (r : result A) : preserves h0 (lift r).
Proof. intros w Hw. exact Hw. Qed.

Lemma preserves_bind {A B} h0 (m : M A) (f : A -> M B) :
  preserves h0 m -> (forall a, preserves h0 (f a)) -> preserves h0 (m ≫= f).
Proof.
  intros Hm Hf w Hw. unfold mbind, M_bind.
  specialize (Hm w Hw). destruct (m w) as [[a|e] w']; simpl in *.
  - by apply Hf.
  - done.
Qed.

Lemma preserves_load h0 l : preserves h0 (load l).
Proof. intros w Hw. unfold load. by destruct (heap w !! l). Qed.

Lemma preserves_alloc h0 o : preserves h0 (alloc o).
Proof.
  intros w Hw. unfold alloc; simpl.
  etrans; [exact Hw |]. apply insert_subseteq.
  apply not_elem_of_dom, is_fresh.
Qed.

Lemma preserves_store h0 l o : h0 !! l = None -> preserves h0 (store l o).
Proof. intros Hl w Hw. unfold store; simpl. by apply insert_subseteq_r. Qed.

Lemma preserves_load_int h0 l : preserves h0 (load_int l).
Proof.
  apply preserves_bind; [apply preserves_load |].
  intros [xs|rs]; [apply preserves_ret | apply preserves_lift].
Qed.

Lemma preserves_load_refs h0 l : preserves h0 (load_refs l).
Proof.
  apply preserves_bind; [apply preserves_load |].
  intros [xs|rs]; [apply preserves_lift | apply preserves_ret].
Qed.

Lemma preserves_mapM {A B} h0 (f : A -> M B) (l : list A) :
  (forall a, preserves h0 (f a)) -> preserves h0 (mapM f l).
Proof.
  intros Hf. induction l as [|x l IH]; simpl.
  - apply preserves_ret.
  - apply preserves_bind; [apply Hf |]. intros y.
    apply preserves_bind; [apply IH |]. intros ys. apply preserves_ret.
Qed.

Lemma preserves_read_posts h0 posts : preserves h0 (read_posts posts).
Proof.
  apply preserves_bind; [apply preserves_load_refs |].
  intros rs. apply preserves_mapM, preserves_load_int.
Qed.

Lemma preserves_setindex_posts h0 posts new arm :
  h0 !! posts = None -> preserves h0 (setindex_posts posts new arm).
Proof.
  intros Hp. apply preserves_bind; [apply preserves_load_refs |]. intros rs.
  apply preserves_bind; [apply preserves_alloc |]. intros l.
  apply preserves_bind; [apply preserves_lift |]. intros rs'.
  by apply preserves_store.
Qed.

Section Simulation_facts.

Variable quantile : BetaDist -> Q -> Q.
Variable uniform : nat -> Q.

Lemma preserves_rand_Bernoulli h0 p : preserves h0 (rand_Bernoulli uniform p).
Proof. intros w Hw. exact Hw. Qed.

Lemma preserves_pull h0 posts true_ps :
  h0 !! posts = None -> preserves h0 (pull quantile uniform posts true_ps).
Proof.
  intros Hp. unfold pull.
  apply preserves_bind; [apply preserves_read_posts |]. intros vals.
  apply preserves_bind; [apply preserves_lift |]. intros arm.
  apply preserves_bind; [apply preserves_lift |]. intros p.
  apply preserves_bind; [apply preserves_lift |]. intros d.
  apply preserves_bind; [apply preserves_rand_Bernoulli |]. intros success.
  apply preserves_bind; [apply preserves_lift |]. intros post.
  apply preserves_bind; [apply preserves_lift |]. intros post'.
  apply preserves_bind; [by apply preserves_setindex_posts |]. intros _.
  apply preserves_ret.
Qed.

Lemma preserves_explore_and_exploit_loop h0 n posts true_ps : forall successes,
  h0 !! posts = None ->
  preserves h0 (explore_and_exploit_loop quantile uniform n posts true_ps successes).
Proof.
  induction n as [|n IH]; intros successes Hp; simpl.
  - apply preserves_ret.
  - apply preserves_bind; [by apply preserves_pull |]. intros success.
    by apply IH.
Qed.

Lemma preserves_plot_posts h0 posts true_ps n :
  preserves h0 (plot_posts posts true_ps n).
Proof.
  apply preserves_bind; [apply preserves_read_posts |]. intros vals.
  apply preserves_bind; [apply preserves_lift |]. intros _.
  intros w Hw. exact Hw.
Qed.

Lemma preserves_explore_and_exploit_plot_loop h0 k posts true_ps : forall n,
  h0 !! posts = None ->
  preserves h0 (explore_and_exploit_plot_loop quantile uniform k n posts true_ps).
Proof.
  induction k as [|k IH]; intros n Hp; simpl.
  - apply preserves_ret.
  - apply preserves_bind; [by apply preserves_pull |]. intros _.
    apply preserves_bind; [apply preserves_plot_posts |]. intros _.
    by apply IH.
Qed.

(** After [posts = copy(priors)] the rest of a simulation only writes the
    copy, which was not part of the caller's store. *)
Lemma copy_then_preserves {A} (priors : loc) (k : loc -> M A) (w : world) :
  (forall posts, heap w !! posts = None -> preserves (heap w) (k posts)) ->
  heap w ⊆ heap ((copy priors ≫= k) w).2.
Proof.
  intros Hk. unfold mbind, M_bind, copy, mbind, M_bind, load.
  destruct (heap w !! priors) as [o|] eqn:E; simpl; [|done].
  assert (Hfresh : heap w !! fresh (dom (heap w)) = None)
    by apply not_elem_of_dom, is_fresh.
  apply (Hk _ Hfresh). simpl. by apply insert_subseteq.
Qed.

Lemma explore_and_exploit_preserves priors true_ps sample_size w :
  heap w ⊆ heap (explore_and_exploit quantile uniform priors true_ps sample_size w).2.
Proof.
  apply copy_then_preserves. intros posts Hp.
  apply preserves_bind; [by apply preserves_explore_and_exploit_loop |].
  intros successes. apply preserves_ret.
Qed.

Lemma explore_and_exploit_plot_preserves priors true_ps sample_size w :
  heap w ⊆ heap (explore_and_exploit_plot quantile uniform priors true_ps sample_size w).2.
Proof.
  apply copy_then_preserves. intros posts Hp.
  by apply preserves_explore_and_exploit_plot_loop.
Qed.

End Simulation_facts.

Lemma load_vec_weaken h h' l xs :
  h ⊆ h' -> load_vec h l = Some xs -> load_vec h' l = Some xs.
Proof.
  intros Hh. unfold load_vec.
  destruct (h !! l) as [o|] eqn:E; [|discriminate].
  by rewrite (lookup_weaken _ _ _ _ E Hh).
Qed.

Lemma value_of_weaken h h' l v :
  h ⊆ h' -> value_of h l = Some v -> value_of h' l = Some v.
Proof.
  intros Hh. unfold value_of.
  destruct (h !! l) as [[xs|rs]|] eqn:E; try discriminate.
  rewrite (lookup_weaken _ _ _ _ E Hh), !mapM_Some.
  intros HF. eapply Forall2_impl; [exact HF |].
  intros r xs. by apply load_vec_weaken.
Qed.

(** C6.  The bandit simulations leave their [priors] argument as it was:
    for every store, every [priors], every vector of success probabilities,
    every sample size and every run of the random number generator, all
    objects that exist before a call to [explore_and_exploit] or
    [explore_and_exploit_plot] are unchanged after it (whether it returns or
    throws), so the value of [priors] is the same: updates go to the copy
    [posts], and [post_recursive] allocates a new vector for each
    posterior. *)
Theorem explore_and_exploit_leaves_priors
    (quantile : BetaDist -> Q -> Q) (uniform : nat -> Q)
    (priors : loc) (true_ps : list Q) (sample_size : Z) (w : world) :
  let w1 := (explore_and_exploit quantile uniform priors true_ps sample_size w).2 in
  let w2 := (explore_and_exploit_plot quantile uniform priors true_ps sample_size w).2 in
  (heap w ⊆ heap w1
   /\ forall v, value_of (heap w) priors = Some v -> value_of (heap w1) priors = Some v)
  /\ (heap w ⊆ heap w2
   /\ forall v, value_of (heap w) priors = Some v -> value_of (heap w2) priors = Some v).
Proof.
  intros w1 w2.
  pose proof (explore_and_exploit_preserves quantile uniform priors true_ps sample_size w) as H1.
  pose proof (explore_and_exploit_plot_preserves quantile uniform priors true_ps sample_size w) as H2.
  repeat split; [exact H1 | | exact H2 |]; intros v; by apply value_of_weaken.
Qed.

(** A run of three pulls: every draw is 1/4, the first arm pays with
    probability 1/2.  The caller's vectors are as before; the copy, at the
    new location 4, holds the posterior [[4, 1]] of the first arm. *)
Example explore_and_exploit_run :
  let r := explore_and_exploit mean_stub (fun _ => (1 # 4)%Q) 1%positive
             [(1 # 2)%Q; (1 # 5)%Q] 3 two_arms in
  r.1 = Ok (Finite (3 # 3))
  /\ value_of (heap r.2) 1%positive = Some [[1; 1]; [1; 1]]
  /\ value_of (heap r.2) 4%positive = Some [[4; 1]; [1; 1]]
  /\ drawn r.2 = 3%nat.
Proof. vm_compute. repeat split. Qed.

(** With a single success probability the second pull asks for
    [true_ps[2]]: the run stops with [BoundsError], the caller's vectors are
    as before. *)
Example explore_and_exploit_throws :
  let r := explore_and_exploit mean_stub (fun _ => (3 # 4)%Q) 1%positive
             [(1 # 2)%Q] 5 two_arms in
  r.1 = Raise BoundsError
  /\ value_of (heap r.2) 1%positive = Some [[1; 1]; [1; 1]]
  /\ value_of (heap r.2) 4%positive = Some [[1; 2]; [1; 1]].
Proof. vm_compute. repeat split. Qed.

Example explore_and_exploit_plot_run :
  let r := explore_and_exploit_plot mean_stub (fun _ => (1 # 4)%Q) 1%positive
             [(1 # 2)%Q; (1 # 5)%Q] 2 two_arms in
  r.1 = Ok tt
  /\ frames r.2 = [(1%nat, [[2; 1]; [1; 1]]); (2%nat, [[3; 1]; [1; 1]])]
  /\ value_of (heap r.2) 1%positive = Some [[1; 1]; [1; 1]].
Proof. vm_compute. repeat split. Qed.

End Coin_facts.

(** ** The VB notebook *)

Section VB_facts.
Import Explore_VB.
Open Scope R_scope.

(** *** Vectors *)

Lemma length_vadd (u v : vec) : length u = length v -> length (vadd u v) = length u.
Proof. intros H. unfold vadd. rewrite length_zip_with. lia. Qed.

Lemma length_vscale c (v : vec) : length (vscale c v) = length v.
Proof. apply length_map. Qed.

Lemma vadd_zeros_r (v : vec) c : (length v <= c)%nat -> vadd v (replicate c 0) = v.
Proof.
  revert c. induction v as [|x v IH]; intros [|c] H; simpl in *; try done; try lia.
  unfold vadd in *. simpl. rewrite IH by lia. f_equal. lra.
Qed.

Lemma vadd_zeros_l (v : vec) c : (length v <= c)%nat -> vadd (replicate c 0) v = v.
Proof.
  revert c. induction v as [|x v IH]; intros [|c] H; simpl in *; try done; try lia.
  unfold vadd in *. simpl. rewrite IH by lia. f_equal. lra.
Qed.

Lemma vscale_0 (v : vec) : vscale 0 v = replicate (length v) 0.
Proof. induction v as [|x v IH]; simpl; [done |]. rewrite IH. f_equal. lra. Qed.


(** *** Row vector times matrix *)

Lemma vecmat_cons c r (row : vec) (b : vec) (B : matrix) :
  vecmat c (r :: row) (b :: B) = vadd (vscale r b) (vecmat c row B).
Proof. reflexivity. Qed.

Lemma length_vecmat c (row : vec) (B : matrix) :
  Forall (fun b => length b = c) B -> length (vecmat c row B) = c.
Proof.
  intros HB. revert row. induction HB as [|b B Hb HB IH]; intros [|r row].
  - apply length_replicate.
  - apply length_replicate.
  - apply length_replicate.
  - rewrite vecmat_cons, length_vadd; rewrite length_vscale; [done |].
    by rewrite IH.
Qed.

Lemma vecmat_zeros c n (B : matrix) :
  Forall (fun b => length b = c) B -> vecmat c (replicate n 0) B = replicate c 0.
Proof.
  intros HB. revert n. induction HB as [|b B Hb HB IH]; intros [|n]; try done.
  simpl replicate. rewrite vecmat_cons, IH, vscale_0, Hb.
  apply vadd_zeros_r. by rewrite length_replicate.
Qed.

(** *** Diagonal matrices *)

Lemma length_diag ms : length (diag ms) = length ms.
Proof. induction ms as [|m ms IH]; simpl; [done |]. by rewrite length_map, IH. Qed.

Lemma is_matrix_diag ms : is_matrix (length ms) (length ms) (diag ms).
Proof.
  split; [apply length_diag |].
  induction ms as [|m ms IH]; simpl; constructor.
  - simpl. by rewrite length_replicate.
  - rewrite Forall_map. eapply Forall_impl; [exact IH |].
    intros row Hrow. simpl. by rewrite Hrow.
Qed.

Lemma is_matrix_identity D : is_matrix D D (identity D).
Proof.
  unfold identity. pose proof (is_matrix_diag (replicate D 1)) as H.
  by rewrite length_replicate in H.
Qed.

Lemma diagonal_diag ms : diagonal (diag ms) = ms.
Proof.
  unfold diagonal. induction ms as [|m ms IH]; simpl; [done |].
  f_equal. rewrite imap_fmap. etrans; [|exact IH].
  by apply imap_ext.
Qed.

Lemma linalg_inv_diag ms : linalg_inv (diag ms) = diag (map Rinv ms).
Proof. unfold linalg_inv. by rewrite diagonal_diag. Qed.

Lemma rows_diag_mul c ms : forall B : matrix,
  length B = length ms -> Forall (fun b => length b = c) B ->
  map (fun row => vecmat c row B) (diag ms) = zip_with vscale ms B.
Proof.
  induction ms as [|m ms IH]; intros [|b B] Hlen HB; simpl in *; try done.
  apply Forall_cons in HB as [Hb HB].
  f_equal.
  - rewrite vecmat_cons, vecmat_zeros by done.
    apply vadd_zeros_r. by rewrite length_vscale, Hb.
  - rewrite map_map. etrans; [|apply IH; [lia | done]].
    apply map_ext. intros row.
    rewrite vecmat_cons, vscale_0, Hb.
    apply vadd_zeros_l. by rewrite length_vecmat.
Qed.

Lemma matmul_diag c ms (B : matrix) :
  is_matrix (length ms) c B -> matmul (diag ms) B = zip_with vscale ms B.
Proof.
  intros [Hlen HB]. unfold matmul.
  destruct B as [|b B]; [by destruct ms |].
  apply rows_diag_mul; [done |].
  unfold ncols; simpl. apply Forall_cons in HB as [Hb HB].
  rewrite Hb. by constructor.
Qed.

(** [linalg_inv] is a two-sided inverse on diagonal matrices with nonzero
    entries, as [np.linalg.inv] is. *)

Lemma vscale_zeros m n : vscale m (replicate n 0) = replicate n 0.
Proof. induction n as [|n IH]; simpl; [done |]. rewrite IH. f_equal. lra. Qed.

Lemma rows_scaled_shift (ms : list R) : forall X : matrix,
  zip_with vscale ms (map (cons 0) X) = map (cons 0) (zip_with vscale ms X).
Proof.
  induction ms as [|m ms IH]; intros [|row X]; simpl; try done.
  rewrite IH. do 2 f_equal. lra.
Qed.

Lemma diag_rows_scaled (ms : list R) : forall ms' : list R,
  length ms = length ms' ->
  zip_with vscale ms (diag ms') = diag (zip_with Rmult ms ms').
Proof.
  induction ms as [|m ms IH]; intros [|m' ms'] Hlen; simpl in *; try done.
  rewrite vscale_zeros, rows_scaled_shift, IH by lia.
  rewrite length_zip_with. do 3 f_equal. lia.
Qed.

Lemma reciprocals (ms : list R) :
  Forall (fun m => m <> 0) ms ->
  zip_with Rmult ms (map Rinv ms) = replicate (length ms) 1
  /\ zip_with Rmult (map Rinv ms) ms = replicate (length ms) 1.
Proof.
  induction 1 as [|m ms Hm _ [IHr IHl]]; simpl; [done |].
  rewrite IHr, IHl. split; f_equal; [by apply Rinv_r | by apply Rinv_l].
Qed.

Lemma linalg_inv_is_inverse (ms : list R) :
  Forall (fun m => m <> 0) ms ->
  matmul (diag ms) (linalg_inv (diag ms)) = identity (length ms)
  /\ matmul (linalg_inv (diag ms)) (diag ms) = identity (length ms).
Proof.
  intros Hms. rewrite linalg_inv_diag. unfold identity.
  destruct (reciprocals ms Hms) as [Hr Hl].
  split.
  - rewrite (matmul_diag (length ms))
      by (pose proof (is_matrix_diag (map Rinv ms)) as H;
          by rewrite length_map in H).
    by rewrite diag_rows_scaled, Hr by (by rewrite length_map).
  - rewrite (matmul_diag (length ms))
      by (rewrite length_map; apply is_matrix_diag).
    by rewrite diag_rows_scaled, Hl by (by rewrite length_map).
Qed.

Example matmul_2x2 :
  matmul [[1; 2]; [3; 4]] [[5; 6]; [7; 8]] = [[19; 22]; [43; 50]].
Proof. compute_arrays. entrywise; lra. Qed.


(** *** Shapes *)





(** *** The back-transformation inverts the discretisation *)











(** *** Matrix-vector products *)

Lemma dot_nil_r (u : vec) : dot u [] = 0.
Proof. by destruct u. Qed.

Lemma dot_zeros_l c (v : vec) : dot (replicate c 0) v = 0.
Proof.
  revert v. induction c as [|c IH]; intros [|x v]; simpl; try done.
  unfold dot in *. simpl. rewrite IH. lra.
Qed.

Lemma dot_vscale_l r (u v : vec) : dot (vscale r u) v = r * dot u v.
Proof.
  revert v. induction u as [|a u IH]; intros [|x v]; unfold dot in *; simpl;
    try lra.
  rewrite IH. lra.
Qed.

Lemma dot_vadd_l (u w v : vec) :
  length u = length w -> dot (vadd u w) v = dot u v + dot w v.
Proof.
  revert w v. induction u as [|a u IH]; intros [|b w] [|x v] H;
    unfold dot, vadd in *; simpl in *; try done; try lra.
  rewrite IH by lia. lra.
Qed.

Lemma dot_vecmat c (row : vec) (B : matrix) (v : vec) :
  Forall (fun b => length b = c) B ->
  dot (vecmat c row B) v = dot row (matvec B v).
Proof.
  intros HB. revert row. induction HB as [|b B Hb HB IH]; intros [|r row].
  - apply dot_zeros_l.
  - unfold vecmat; simpl. by rewrite dot_zeros_l, dot_nil_r.
  - apply dot_zeros_l.
  - rewrite vecmat_cons, dot_vadd_l, dot_vscale_l, IH.
    + unfold dot; simpl. done.
    + by rewrite length_vscale, length_vecmat.
Qed.

Lemma matvec_matmul (A B : matrix) (v : vec) :
  Forall (fun b => length b = ncols B) B ->
  matvec (matmul A B) v = matvec A (matvec B v).
Proof.
  intros HB. unfold matvec at 1 3, matmul. rewrite map_map.
  apply map_ext. intros row. by apply dot_vecmat.
Qed.

Lemma matvec_diag (ms : list R) : forall v : vec,
  length v = length ms -> matvec (diag ms) v = zip_with Rmult ms v.
Proof.
  induction ms as [|m ms IH]; intros [|x v] H; simpl in *; try done.
  unfold matvec in *. simpl. f_equal.
  - unfold dot; simpl. fold (dot (replicate (length ms) 0) v).
    rewrite dot_zeros_l. lra.
  - rewrite map_map. etrans; [|apply IH; lia].
    apply map_ext. intros row. unfold dot; simpl. lra.
Qed.

Lemma matvec_identity D (v : vec) : length v = D -> matvec (identity D) v = v.
Proof.
  intros <-. unfold identity. rewrite matvec_diag by by rewrite length_replicate.
  induction v as [|x v IH]; simpl; [done |]. rewrite IH. f_equal. lra.
Qed.

Lemma length_matvec (A : matrix) (v : vec) : length (matvec A v) = length A.
Proof. apply length_map. Qed.

Lemma is_matrix_ncols D (B : matrix) :
  is_matrix D D B -> Forall (fun b => length b = ncols B) B.
Proof.
  intros [Hl HB]. destruct B as [|b B]; [constructor |].
  unfold ncols; simpl. apply Forall_cons in HB as HB'. destruct HB' as [Hb _].
  by rewrite Hb.
Qed.

Lemma is_matrix_matmul D (A B : matrix) :
  length A = D -> is_matrix D D B -> is_matrix D D (matmul A B).
Proof.
  intros HA HB. pose proof (is_matrix_ncols D B HB) as Hn.
  destruct HB as [Hl HB]. split; [by unfold matmul; rewrite length_map |].
  unfold matmul. rewrite Forall_map. apply Forall_forall. intros row _.
  simpl. rewrite length_vecmat by done.
  destruct B as [|b B]; simpl in *.
  - subst D. by destruct A.
  - unfold ncols; simpl. by apply Forall_cons in HB as [Hb _].
Qed.

Lemma is_matrix_mpow D (A : matrix) n :
  length A = D -> is_matrix D D (mpow D A n).
Proof.
  intros HA. induction n as [|n IH]; simpl.
  - apply is_matrix_identity.
  - by apply is_matrix_matmul.
Qed.

Lemma matvec_mpow_S D (A : matrix) n (v : vec) :
  length A = D ->
  matvec (mpow D A (S n)) v = matvec A (matvec (mpow D A n) v).
Proof.
  intros HA. simpl. apply matvec_matmul.
  apply (is_matrix_ncols D), is_matrix_mpow, HA.
Qed.

(** *** The data generator *)

Section Generator_facts.

Variable randn : nat -> R.
Variable uninitialised : nat -> nat -> R.
Variables (N D : nat) (a : matrix) (x_0 : vec) (std_noise_x std_noise_y : R).

Local Abbreviation generated_upto :=
  (generated_upto randn N D a x_0 std_noise_x std_noise_y).


Lemma length_np_empty n d : length (np_empty uninitialised n d) = n.
Proof. unfold np_empty. by rewrite length_map, length_seq. Qed.

Lemma generate_step_spec j st :
  generated_upto j st -> (S j < N)%nat ->
  exists st', generate_step randn D D a std_noise_x std_noise_y st j = Ok st'
              /\ generated_upto (S j) st'.
Proof.
  intros (Hlx & Hly & Hpos & H0 & Hx & Hy) Hj.
  destruct (Hy j (le_n j)) as (xj & Hxj & Hyj).
  unfold generate_step, getrow, setrow. rewrite Hxj. cbn [mbind result_bind].
  rewrite Nat.add_1_r.
  destruct (decide (S j < length (arr_x st))%nat) as [_|Hn]; [|lia].
  cbn [mbind result_bind]. rewrite list_lookup_insert_eq by lia.
  destruct (decide (S j < length (arr_y st))%nat) as [_|Hn]; [|lia].
  cbn [mbind result_bind]. eexists. split; [reflexivity |].
  unfold generated_upto; cbn [arr_x arr_y consumed].
  rewrite !length_insert.
  split; [done |]. split; [done |]. split; [lia |].
  split; [by rewrite list_lookup_insert_ne |]. split.
  - intros n Hn. destruct (decide (n = j)) as [->|Hne].
    + exists xj. rewrite list_lookup_insert_ne by lia.
      rewrite list_lookup_insert_eq by lia.
      split; [done |]. unfold noise_r. by rewrite Hpos.
    + destruct (Hx n ltac:(lia)) as (xn & Hxn & Hxn1).
      exists xn. by rewrite !list_lookup_insert_ne by lia.
  - intros n Hn. destruct (decide (n = S j)) as [->|Hne].
    + eexists. rewrite !list_lookup_insert_eq by lia.
      split; [reflexivity |]. unfold noise_s. by rewrite Hpos.
    + destruct (Hy n ltac:(lia)) as (xn & Hxn & Hyn).
      exists xn. by rewrite !list_lookup_insert_ne by lia.
Qed.

Lemma generate_loop_spec k : forall j st,
  generated_upto j st -> (j + k < N)%nat ->
  exists st',
    for_range (generate_step randn D D a std_noise_x std_noise_y) st (seq j k)
    = Ok st' /\ generated_upto (j + k) st'.
Proof.
  induction k as [|k IH]; intros j st Hst Hjk; simpl.
  - exists st. by rewrite Nat.add_0_r.
  - destruct (generate_step_spec j st Hst) as (st1 & -> & Hst1); [lia |].
    cbn [mbind result_bind].
    destruct (IH (S j) st1 Hst1) as (st' & Hrun & Hst'); [lia |].
    exists st'. split; [done |]. by replace (j + S k)%nat with (S j + k)%nat by lia.
Qed.

Lemma generate_spec :
  (1 <= N)%nat ->
  exists st, generate randn uninitialised N D D a x_0 std_noise_x std_noise_y = Ok st
             /\ generated_upto (N - 1) st.
Proof.
  intros HN. unfold generate, setrow, getrow.
  rewrite !length_np_empty.
  destruct (decide (0 < N)%nat) as [_|Hn]; [|lia]. cbn [mbind result_bind].
  rewrite list_lookup_insert_eq by (rewrite length_np_empty; lia).
  cbn [mbind result_bind].
  apply (generate_loop_spec (N - 1) 0); [|lia].
  unfold generated_upto; cbn [arr_x arr_y consumed].
  rewrite !length_insert, !length_np_empty.
  split; [done |]. split; [done |]. split; [lia |].
  split; [by rewrite list_lookup_insert_eq by (rewrite length_np_empty; lia) |].
  split; [intros n Hn; lia |].
  intros n Hn. assert (n = 0%nat) as -> by lia. exists x_0.
  by rewrite !list_lookup_insert_eq by (rewrite length_np_empty; lia).
Qed.

Lemma length_np_random_randn pos k : length (np_random_randn randn pos k) = k.
Proof. unfold np_random_randn. by rewrite length_map, length_seq. Qed.

(** Without process noise the latent state is [a^n x_0]. *)
Lemma noise_free_trajectory j st :
  generated_upto j st -> std_noise_x = 0 -> length a = D -> length x_0 = D ->
  forall n, (n <= j)%nat -> arr_x st !! n = Some (matvec (mpow D a n) x_0).
Proof.
  intros (Hlx & Hly & Hpos & H0 & Hx & Hy) Hnoise Ha Hx0.
  induction n as [|n IH]; intros Hn.
  - simpl. by rewrite matvec_identity.
  - destruct (Hx n ltac:(lia)) as (xn & Hxn & Hxn1).
    rewrite IH in Hxn by lia. injection Hxn as <-.
    rewrite Hxn1, Hnoise, vscale_0, vadd_zeros_r.
    + by rewrite matvec_mpow_S.
    + unfold noise_r. rewrite length_np_random_randn, length_matvec. lia.
Qed.

(** Without process noise every step of the loop is [x[n+1] = a . x[n]]. *)
Lemma noise_free_step st :
  generate randn uninitialised N D D a x_0 std_noise_x std_noise_y = Ok st ->
  std_noise_x = 0 -> length a = D -> length x_0 = D ->
  forall n xn xn1,
    arr_x st !! n = Some xn -> arr_x st !! (n + 1)%nat = Some xn1 ->
    length xn = D /\ xn1 = matvec a xn.
Proof.
  intros Hrun Hnoise Ha Hx0 n xn xn1 Hxn Hxn1.
  destruct (decide (1 <= N)%nat) as [HN|HN].
  - destruct (generate_spec HN) as (st' & Hrun' & Hst).
    rewrite Hrun in Hrun'. injection Hrun' as <-.
    pose proof Hst as (Hlx & _ & _ & _ & Hx & _).
    assert (Hn : (n + 1 < N)%nat) by (apply lookup_lt_Some in Hxn1; lia).
    pose proof (noise_free_trajectory (N - 1) st Hst Hnoise Ha Hx0 n ltac:(lia)) as Hn0.
    pose proof (noise_free_trajectory (N - 1) st Hst Hnoise Ha Hx0 (n + 1) ltac:(lia)) as Hn1.
    rewrite Hxn in Hn0. rewrite Hxn1 in Hn1.
    injection Hn0 as ->. injection Hn1 as ->.
    split.
    + rewrite length_matvec. by destruct (is_matrix_mpow D a n Ha).
    + rewrite Nat.add_1_r. by apply matvec_mpow_S.
  - assert (N = 0%nat) as HN0 by lia. rewrite HN0 in Hrun. discriminate.
Qed.

End Generator_facts.

(** Two rows of a one-dimensional system: the draws are consumed in the
    order [s[0], r[0], s[1]]. *)
Example generate_two_rows (randn : nat -> R) (u : nat -> nat -> R)
    (a11 x0 sx sy : R) :
  generate randn u 2 1 1 [[a11]] [x0] sx sy
  = Ok (mkData [[x0]; [a11 * x0 + 0 + sx * randn 1%nat]]
               [[x0 + sy * randn 0%nat];
                [a11 * x0 + 0 + sx * randn 1%nat + sy * randn 2%nat]]
               3).
Proof. reflexivity. Qed.

(** C2.  The synthetic data generator satisfies, for every index [n] with
    [0 <= n < N - 1], the state recurrence [x[n+1] = a . x[n] + std_noise_x
    * r[n]] and the observation equation [y[n] = x[n] + std_noise_y * s[n]],
    where [r[n]] and [s[n]] are the injected normal draws; when
    [std_noise_x = 0] (as in both experiments) the latent trajectory is
    exactly [x[n] = a^n . x[0]] and only the observations carry noise. *)
Theorem generated_data_recurrence (randn : nat -> R) (uninitialised : nat -> nat -> R)
    (N D : nat) (a : matrix) (x_0 : vec) (std_noise_x std_noise_y : R) :
  (1 <= N)%nat -> is_matrix D D a -> length x_0 = D ->
  exists st,
    generate randn uninitialised N D D a x_0 std_noise_x std_noise_y = Ok st
    /\ (forall n, (n < N - 1)%nat -> exists xn,
          arr_x st !! n = Some xn
          /\ arr_x st !! (n + 1)%nat
             = Some (vadd (matvec a xn) (vscale std_noise_x (noise_r randn D D n)))
          /\ arr_y st !! n
             = Some (vadd xn (vscale std_noise_y (noise_s randn D D n))))
    /\ (std_noise_x = 0 -> forall n, (n < N)%nat ->
          arr_x st !! n = Some (matvec (mpow D a n) x_0)
          /\ arr_y st !! n
             = Some (vadd (matvec (mpow D a n) x_0)
                          (vscale std_noise_y (noise_s randn D D n)))).
Proof.
  intros HN [Ha _] Hx0.
  destruct (generate_spec randn uninitialised N D a x_0 std_noise_x std_noise_y HN)
    as (st & Hrun & Hst).
  exists st. split; [done |]. split.
  - intros n Hn. destruct Hst as (_ & _ & _ & _ & Hx & Hy).
    destruct (Hx n Hn) as (xn & Hxn & Hxn1).
    destruct (Hy n ltac:(lia)) as (xn' & Hxn' & Hyn).
    exists xn. rewrite Nat.add_1_r. split; [done |]. split; [done |]. congruence.
  - intros Hnoise n Hn.
    pose proof (noise_free_trajectory randn N D a x_0 std_noise_x std_noise_y
                  (N - 1) st Hst Hnoise Ha Hx0 n ltac:(lia)) as Hxn.
    split; [done |].
    destruct Hst as (_ & _ & _ & _ & _ & Hy).
    destruct (Hy n ltac:(lia)) as (xn & Hxn' & Hyn). congruence.
Qed.

Lemma generated_data_recurrence_witness :
  (exists st,
      Two_blocks.simulated (fun _ => 0) (fun _ _ => 0) = Ok st
      /\ forall n, (n < Two_blocks.N)%nat ->
           arr_x st !! n
           = Some (matvec (mpow 2 Two_blocks.a n) [Two_blocks.x_1_0; Two_blocks.x_2_0]))
  /\ (exists st,
      Three_blocks.simulated (fun _ => 0) (fun _ _ => 0) = Ok st
      /\ forall n, (n < Three_blocks.N)%nat ->
           arr_x st !! n
           = Some (matvec (mpow 3 Three_blocks.a n)
                     [Three_blocks.x_1_0; Three_blocks.x_2_0; Three_blocks.x_3_0])).
Proof.
  split.
  - destruct (generated_data_recurrence (fun _ => 0) (fun _ _ => 0)
                Two_blocks.N 2 Two_blocks.a [Two_blocks.x_1_0; Two_blocks.x_2_0]
                Two_blocks.std_noise_x Two_blocks.std_noise_y)
      as (st & Hrun & _ & Hfree).
    + unfold Two_blocks.N. lia.
    + split; [reflexivity | repeat constructor].
    + reflexivity.
    + exists st. split; [exact Hrun |].
      intros n Hn. exact (proj1 (Hfree eq_refl n Hn)).
  - destruct (generated_data_recurrence (fun _ => 0) (fun _ _ => 0)
                Three_blocks.N 3 Three_blocks.a
                [Three_blocks.x_1_0; Three_blocks.x_2_0; Three_blocks.x_3_0]
                Three_blocks.std_noise_x Three_blocks.std_noise_y)
      as (st & Hrun & _ & Hfree).
    + unfold Three_blocks.N. lia.
    + split; [reflexivity | repeat constructor].
    + reflexivity.
    + exists st. split; [exact Hrun |].
      intros n Hn. exact (proj1 (Hfree eq_refl n Hn)).
Defined.

(** *** Invariants of the transition matrices *)



Lemma conserved_by_generator D (Mconst a : matrix) :
  length a = D ->
  (forall x, length x = D ->
      total_heat Mconst (matvec a x) = total_heat Mconst x) ->
  forall (randn : nat -> R) (uninitialised : nat -> nat -> R) N x_0
         std_noise_y st,
    length x_0 = D ->
    generate randn uninitialised N D D a x_0 0 std_noise_y = Ok st ->
    forall n xn xn1,
      arr_x st !! n = Some xn -> arr_x st !! (n + 1)%nat = Some xn1 ->
      total_heat Mconst xn1 = total_heat Mconst xn.
Proof.
  intros Ha Hheat randn uninitialised N x_0 std_noise_y st Hx0 Hrun n xn xn1 Hxn Hxn1.
  destruct (noise_free_step randn uninitialised N D a x_0 0 std_noise_y st
              Hrun eq_refl Ha Hx0 n xn xn1 Hxn Hxn1) as [Hlen ->].
  by apply Hheat.
Qed.

Lemma physical_invariants_2 (Dt mcp_1 mcp_2 k : R) :
  mcp_1 <> 0 -> mcp_2 <> 0 ->
  physical_invariants 2 (diag [mcp_1; mcp_2])
    (transition 2 Dt (diag [mcp_1; mcp_2]) (K_2 k)).
Proof.
  intros H1 H2.
  assert (Hheat : forall x : vec, length x = 2%nat ->
    total_heat (diag [mcp_1; mcp_2])
      (matvec (transition 2 Dt (diag [mcp_1; mcp_2]) (K_2 k)) x)
    = total_heat (diag [mcp_1; mcp_2]) x).
  { intros [|x1 [|x2 [|? ?]]] Hx; try discriminate.
    compute_arrays. field. done. }
  split; [| split; [| split; [| split]]].
  - repeat constructor; compute_arrays; ring.
  - intros c. compute_arrays. f_equal; [|f_equal]; ring.
  - compute_arrays. f_equal; [|f_equal]; field; done.
  - exact Hheat.
  - by apply conserved_by_generator.
Qed.

Lemma physical_invariants_3 (Dt mcp_1 mcp_2 mcp_3 k12 k23 : R) :
  mcp_1 <> 0 -> mcp_2 <> 0 -> mcp_3 <> 0 ->
  physical_invariants 3 (diag [mcp_1; mcp_2; mcp_3])
    (transition 3 Dt (diag [mcp_1; mcp_2; mcp_3]) (K_3 k12 k23)).
Proof.
  intros H1 H2 H3.
  assert (Hheat : forall x : vec, length x = 3%nat ->
    total_heat (diag [mcp_1; mcp_2; mcp_3])
      (matvec (transition 3 Dt (diag [mcp_1; mcp_2; mcp_3]) (K_3 k12 k23)) x)
    = total_heat (diag [mcp_1; mcp_2; mcp_3]) x).
  { intros [|x1 [|x2 [|x3 [|? ?]]]] Hx; try discriminate.
    compute_arrays. field. done. }
  split; [| split; [| split; [| split]]].
  - repeat constructor; compute_arrays; ring.
  - intros c. compute_arrays. f_equal; [|f_equal; [|f_equal]]; ring.
  - compute_arrays. f_equal; [|f_equal; [|f_equal]]; field; done.
  - exact Hheat.
  - by apply conserved_by_generator.
Qed.

(** C9.  Both transition matrices [a = I + Dt Mconst^-1 K] (two and three
    blocks, any time step, any nonzero heat capacities and any conductances)
    satisfy: (i) each row of [a] sums to 1, so every uniform temperature
    vector is a fixed point of [x |-> a . x]; (ii) [1^T Mconst a = 1^T
    Mconst], so the total heat [1^T Mconst x] is conserved by every step of
    the noise-free simulated dynamics. *)
Theorem transition_matrices_invariants
    (Dt mcp_1 mcp_2 mcp_3 k k12 k23 : R) :
  mcp_1 <> 0 -> mcp_2 <> 0 -> mcp_3 <> 0 ->
  physical_invariants 2 (diag [mcp_1; mcp_2])
    (transition 2 Dt (diag [mcp_1; mcp_2]) (K_2 k))
  /\ physical_invariants 3 (diag [mcp_1; mcp_2; mcp_3])
    (transition 3 Dt (diag [mcp_1; mcp_2; mcp_3]) (K_3 k12 k23)).
Proof.
  intros H1 H2 H3. split.
  - by apply physical_invariants_2.
  - by apply physical_invariants_3.
Qed.

Lemma transition_matrices_invariants_witness :
  physical_invariants Two_blocks.D Two_blocks.Mconst Two_blocks.a
  /\ physical_invariants Three_blocks.D Three_blocks.Mconst Three_blocks.a.
Proof.
  apply (transition_matrices_invariants 1 2000 1500 2500 5 5 4); lra.
Defined.

End VB_facts.

(** ** Explore_MCMC.ipynb *)

Section MCMC_facts.
Import Explore_MCMC.
Open Scope R_scope.

(** C3.  For every parameter vector [p] and state [T] the right-hand side
    [LSSM_lump] stores in [dT] exactly the lumped thermal model:
    [dT[i]] is the quotient by [mcp_i] of the conduction, convection and
    sinusoidal input heats of block [i]; this is the sum of the conduction
    term [M^-1 K T], the convection term and the input term. *)
Theorem LSSM_lump_is_lumped_model (q : parameters) (T1 T2 T3 d1 d2 d3 t : R) :
  LSSM_lump [d1; d2; d3] [T1; T2; T3] (to_vector q) t
  = Ok (lumped_thermal_model q T1 T2 T3 t)
  /\ lumped_thermal_model q T1 T2 T3 t
     = Explore_VB.vadd
         (Explore_VB.vadd (conduction q [T1; T2; T3]) (convection q T1 T2 T3))
         (input_heat q t).
Proof.
  split.
  - destruct q. compute_arrays. do 2 f_equal; [|f_equal; [|f_equal]];
      unfold Rdiv; ring.
  - destruct q. compute_arrays. f_equal; [|f_equal; [|f_equal]];
      unfold Rdiv; ring.
Qed.

End MCMC_facts.

(** ** The MSE helper of both Julia notebooks *)

Section MSE_facts.
Open Scope R_scope.


End MSE_facts.

(** ** Explore_UKF.ipynb *)

Section UKF_facts.
Import Explore_UKF.
Open Scope R_scope.

Section Cooling.

Variables (N : nat) (θ T_a T_1 : R).

Local Abbreviation cooling_step := (cooling_step θ T_a).
Local Abbreviation cooled_upto := (cooled_upto N θ T_a T_1).

Lemma cooling_step_spec j T_ :
  cooled_upto j T_ -> (j < N)%nat ->
  exists T', cooling_step T_ (S j) = Ok T' /\ cooled_upto (S j) T'.
Proof.
  intros [Hlen Hclosed] Hj. unfold Explore_UKF.cooling_step. simpl getindex.
  rewrite (Hclosed j (le_n j)). cbn [mbind result_bind].
  rewrite setindex_Ok by lia.
  eexists. split; [reflexivity |]. split; [by rewrite length_insert |].
  replace (pred (S j + 1)) with (S j) by lia.
  intros i Hi. destruct (decide (i = S j)) as [->|Hne].
  - rewrite list_lookup_insert_eq by lia. f_equal. simpl. ring.
  - rewrite list_lookup_insert_ne by lia. apply Hclosed. lia.
Qed.

Lemma cooling_loop_spec k : forall j T_,
  cooled_upto j T_ -> (j + k <= N)%nat ->
  exists T', for_range cooling_step T_ (seq (S j) k) = Ok T'
             /\ cooled_upto (j + k) T'.
Proof.
  induction k as [|k IH]; intros j T_ HT Hjk; simpl.
  - exists T_. by rewrite Nat.add_0_r.
  - destruct (cooling_step_spec j T_ HT) as (T1 & -> & HT1); [lia |].
    cbn [mbind result_bind].
    destruct (IH (S j) T1 HT1) as (T' & Hrun & HT'); [lia |].
    exists T'. split; [done |]. by replace (j + S k)%nat with (S j + k)%nat by lia.
Qed.

Lemma simulate_closed_form :
  exists T_, simulate N θ T_a T_1 = Ok T_ /\ cooled_upto N T_.
Proof.
  unfold simulate. rewrite setindex_Ok by (unfold zeros; rewrite length_replicate; lia).
  cbn [mbind result_bind pred].
  apply (cooling_loop_spec N 0); [|lia].
  split; [by unfold zeros; rewrite length_insert, length_replicate; lia |].
  intros i Hi. assert (i = 0%nat) as -> by lia.
  rewrite list_lookup_insert_eq by (unfold zeros; rewrite length_replicate; lia).
  f_equal. simpl. ring.
Qed.


End Cooling.


(** The transition coefficient of the notebook lies in the unit interval. *)
Lemma real_theta_notebook :
  real_θ Δt h_a A m cp = 35 / 36 /\ 0 < real_θ Δt h_a A m cp < 1.
Proof.
  assert (H : real_θ Δt h_a A m cp = 35 / 36)
    by (unfold real_θ, Δt, h_a, A, m, cp; field).
  rewrite H. split; [reflexivity | lra].
Qed.

Example simulate_two_steps (θ : R) :
  simulate 2 θ T_a T_1
  = Ok [T_1; θ * T_1 + (1 - θ) * T_a;
        θ * (θ * T_1 + (1 - θ) * T_a) + (1 - θ) * T_a].
Proof. reflexivity. Qed.

End UKF_facts.

(** ** Failures *)

Section Failure_facts.
Open Scope R_scope.














End Failure_facts.

(** * Further properties *)

(** ** Bayesics_Coin.ipynb: updating *)

Section Coin_updating_facts.
Import Bayesics_Coin Bayesics_Coin_rest.
Open Scope Z_scope.

(** [post_recursive] returns exactly for priors of one or two entries; a
    one-entry prior is stretched to a pair, every other length throws
    [DimensionMismatch]. *)
Lemma post_recursive_lengths (prior : list Z) (y : bool) :
  match prior with
  | [a] => post_recursive prior y
           = Ok [add64 a (of_bool y); add64 a (sub64 1 (of_bool y))]
  | [a; b] => post_recursive prior y
              = Ok [add64 a (of_bool y); add64 b (sub64 1 (of_bool y))]
  | _ => post_recursive prior y = Raise DimensionMismatch
  end.
Proof. by destruct prior as [|a [|b [|c prior]]]. Qed.

(** Filtering composes: the posterior after [data1 ++ data2] is the
    posterior after [data2] started from the posterior after [data1]. *)
Theorem filter_recursive_app (prior : list Z) (data1 data2 : list bool) :
  filter_recursive prior (data1 ++ data2)
  = post ← filter_recursive prior data1; filter_recursive post data2.
Proof.
  revert prior. induction data1 as [|y data1 IH]; intros prior; simpl; [done |].
  destruct (post_recursive prior y) as [post'|e]; simpl; [apply IH | done].
Qed.

Lemma n_true_app data1 data2 : n_true (data1 ++ data2) = n_true data1 + n_true data2.
Proof. unfold n_true. rewrite count_occ_app. lia. Qed.

Lemma n_false_app data1 data2 :
  n_false (data1 ++ data2) = n_false data1 + n_false data2.
Proof. unfold n_false. rewrite count_occ_app. lia. Qed.

(** Batch updating composes: updating with [data1] and then with [data2] is
    updating with [data1 ++ data2] (also when the sums wrap around). *)
Lemma post_batch_app (alpha beta : Z) (data1 data2 : list bool) :
  (post ← post_batch [alpha; beta] data1; post_batch post data2)
  = post_batch [alpha; beta] (data1 ++ data2).
Proof.
  rewrite !post_batch_pair. cbn [mbind result_bind]. rewrite post_batch_pair.
  rewrite !wrap64_add_l, n_true_app, n_false_app.
  do 2 f_equal; [|f_equal]; f_equal; lia.
Qed.

(** The posterior does not depend on the order of the observations: data
    vectors that are permutations of each other give the same batch
    posterior and the same filtered posterior. *)
Theorem post_batch_permutation (alpha beta : Z) (data data' : list bool) :
  in_int64 alpha -> in_int64 beta ->
  Permutation data data' ->
  post_batch [alpha; beta] data = post_batch [alpha; beta] data'
  /\ filter_recursive [alpha; beta] data = filter_recursive [alpha; beta] data'.
Proof.
  intros Ha Hb Hp.
  pose proof (proj1 (Permutation_count_occ Bool.bool_dec data data') Hp) as Hc.
  split.
  - rewrite !post_batch_pair. unfold n_true, n_false. by rewrite !Hc.
  - rewrite <- (wrap64_in_range alpha Ha), <- (wrap64_in_range beta Hb).
    rewrite !filter_recursive_pair. unfold n_true, n_false. by rewrite !Hc.
Qed.

Lemma post_batch_permutation_witness :
  post_batch [1; 1] [true; false; true] = post_batch [1; 1] [true; true; false]
  /\ filter_recursive [1; 1] [true; false; true]
     = filter_recursive [1; 1] [true; true; false].
Proof.
  apply (post_batch_permutation 1 1 [true; false; true] [true; true; false]).
  - unfold in_int64. lia.
  - unfold in_int64. lia.
  - apply perm_skip, perm_swap.
Defined.

(** ** Bayesics_Coin.ipynb: the animation and [choose_arm] *)


Lemma make_gif_recursive_loop_spec (data : list bool) : forall a b n shown,
  0 < a -> 0 < b ->
  a + Z.of_nat (length data) < 2 ^ 63 -> b + Z.of_nat (length data) < 2 ^ 63 ->
  exists more,
    make_gif_recursive_loop [a; b] n data shown = Ok (shown ++ more)
    /\ length more = length data
    /\ forall k, (k < length data)%nat ->
         more !! k = Some ((n + k)%nat,
                           mkBeta (a + n_true (take (S k) data))
                                  (b + n_false (take (S k) data))).
Proof.
  induction data as [|y data IH]; intros a b n shown Ha Hb Hao Hbo.
  - exists []. simpl. rewrite app_nil_r. split; [done |]. split; [done |]. intros k Hk. simpl in Hk. lia.
  - cbn [make_gif_recursive_loop]. rewrite post_recursive_pair.
    cbn [mbind result_bind getindex lookup list_lookup].
    simpl length in Hao, Hbo.
    assert (Hy : 0 <= of_bool y <= 1) by (destruct y; simpl; lia).
    unfold sub64. rewrite (wrap64_in_range (1 - of_bool y)) by (unfold in_int64; lia).
    unfold add64. rewrite !wrap64_in_range by (unfold in_int64; lia).
    unfold Beta. destruct (decide (0 < a + of_bool y /\ 0 < b + (1 - of_bool y)))
      as [_|Hn]; [|lia].
    cbn [mbind result_bind].
    destruct (IH (a + of_bool y) (b + (1 - of_bool y)) (S n)
                (shown ++ [(n, mkBeta (a + of_bool y) (b + (1 - of_bool y)))]))
      as (more & Hrun & Hlen & Hmore); try lia.
    exists ((n, mkBeta (a + of_bool y) (b + (1 - of_bool y))) :: more).
    split; [by rewrite Hrun, <- app_assoc |]. split; [simpl; lia |].
    intros [|k] Hk.
    + simpl. rewrite Nat.add_0_r. do 3 f_equal.
      * unfold n_true. destruct y; simpl; lia.
      * unfold n_false. destruct y; simpl; lia.
    + simpl in Hk. simpl lookup. rewrite Hmore by lia.
      replace (S n + k)%nat with (n + S k)%nat by lia. do 3 f_equal.
      * unfold n_true. destruct y; simpl; lia.
      * unfold n_false. destruct y; simpl; lia.
Qed.

(** For a pair of positive parameters whose counts cannot overflow,
    [make_gif_recursive] throws nothing and shows one frame per observation:
    frame [n] is the Beta distribution of the prior updated with the first
    [n] observations. *)
Theorem make_gif_recursive_frames (alpha beta : Z) (data : list bool) :
  0 < alpha -> 0 < beta ->
  alpha + Z.of_nat (length data) < 2 ^ 63 ->
  beta + Z.of_nat (length data) < 2 ^ 63 ->
  exists shown,
    make_gif_recursive [alpha; beta] data = Ok shown
    /\ length shown = length data
    /\ forall n, (1 <= n <= length data)%nat ->
         getindex shown n
         = Ok (n, mkBeta (alpha + n_true (take n data))
                         (beta + n_false (take n data))).
Proof.
  intros Ha Hb Hao Hbo.
  destruct (make_gif_recursive_loop_spec data alpha beta 1 [] Ha Hb Hao Hbo)
    as (more & Hrun & Hlen & Hmore).
  exists more. split; [exact Hrun |]. split; [exact Hlen |].
  intros [|k] Hn; [lia |]. simpl. rewrite Hmore by lia. reflexivity.
Qed.

Lemma make_gif_recursive_frames_witness :
  exists shown,
    make_gif_recursive [1; 1] [true; false; true] = Ok shown
    /\ length shown = 3%nat
    /\ forall n, (1 <= n <= 3)%nat ->
         getindex shown n
         = Ok (n, mkBeta (1 + n_true (take n [true; false; true]))
                         (1 + n_false (take n [true; false; true]))).
Proof.
  apply (make_gif_recursive_frames 1 1 [true; false; true]); simpl; lia.
Defined.

(** The improper prior [[0, 0]] fails at its first frame. *)
Example make_gif_recursive_improper_prior :
  make_gif_recursive [0; 0] [true; false] = Raise DomainError.
Proof. vm_compute. reflexivity. Qed.

Section Choose_arm_failures.

Variable quantile : BetaDist -> Q -> Q.

Local Abbreviation build := Beta_of_post.

Lemma choose_arm_unfold posts :
  choose_arm quantile posts
  = dists ← mapM build posts;
    arm ← argmax (map (fun dist => quantile dist (39 # 40)) dists); Ok arm.
Proof. reflexivity. Qed.

Lemma build_Ok post : is_Ok (build post) <-> plottable post.
Proof.
  split.
  - intros [d Hd]. destruct post as [|a [|b rest]]; try discriminate.
    unfold Beta_of_post in Hd. simpl in Hd. unfold Beta in Hd. case_decide as Hab; [|discriminate].
    exists a, b, rest. by destruct Hab.
  - intros (a & b & rest & -> & Ha & Hb). unfold Beta_of_post. simpl. unfold Beta.
    case_decide as Hab; [by eexists | lia].
Qed.

Lemma raises_only_build post : raises_only [BoundsError; DomainError] (build post).
Proof.
  intros e. unfold Beta_of_post.
  destruct post as [|a [|b rest]]; simpl; try (intros [= <-]; set_solver).
  unfold Beta. case_decide; intros [= <-]. set_solver.
Qed.

Lemma mapM_build_Ok posts : is_Ok (mapM build posts) <-> Forall plottable posts.
Proof.
  induction posts as [|post posts IH]; cbn [mapM].
  - split; [constructor | by eexists].
  - rewrite Forall_cons, <- IH, <- build_Ok. split.
    + intros [ds Hds]. destruct (build post) as [d|e]; [|discriminate].
      cbn [mbind result_bind] in Hds.
      destruct (mapM build posts) as [ds'|e]; [|discriminate].
      split; by eexists.
    + intros [[d ->] [ds ->]]. by eexists.
Qed.

Lemma raises_only_mapM_build posts :
  raises_only [BoundsError; DomainError] (mapM build posts).
Proof.
  induction posts as [|post posts IH]; cbn [mapM]; [intros e [=] |].
  intros e. pose proof (raises_only_build post) as Hb.
  destruct (build post) as [d|e']; cbn [mbind result_bind].
  - destruct (mapM build posts) as [ds|e'']; cbn [mbind result_bind]; [intros [=] |].
    intros [= <-]. by apply IH.
  - intros [= <-]. by apply Hb.
Qed.

Lemma length_mapM_build posts ds : mapM build posts = Ok ds -> length ds = length posts.
Proof.
  revert ds. induction posts as [|post posts IH]; intros ds; cbn [mapM].
  - by intros [= <-].
  - destruct (build post) as [d|e]; [|discriminate]. cbn [mbind result_bind].
    destruct (mapM build posts) as [ds'|e]; [|discriminate]. cbn [mbind result_bind].
    intros [= <-]. simpl. f_equal. by apply IH.
Qed.

Lemma choose_arm_is_Ok (posts : list (list Z)) :
  posts <> [] -> Forall plottable posts -> is_Ok (choose_arm quantile posts).
Proof.
  intros Hne Hall. rewrite choose_arm_unfold.
  apply mapM_build_Ok in Hall as [ds Hds].
  rewrite Hds. cbn [mbind result_bind].
  apply length_mapM_build in Hds as Hlen.
  destruct ds as [|d ds]; [by destruct posts |]. by eexists.
Qed.

Lemma mapM_build_first_bad (ok : list (list Z)) post rest e :
  Forall plottable ok -> build post = Raise e ->
  mapM build (ok ++ post :: rest) = Raise e.
Proof.
  intros Hok Hbad. induction Hok as [|p ok Hp _ IH]; cbn [app mapM].
  - by rewrite Hbad.
  - apply build_Ok in Hp as [d ->]. cbn [mbind result_bind]. by rewrite IH.
Qed.

(** [choose_arm] returns an arm exactly when there is at least one arm and
    every posterior starts with two positive parameters.  Otherwise it
    throws, and the first posterior that [Beta] cannot be built from
    decides how: [BoundsError] if it has fewer than two entries,
    [DomainError] if one of its first two entries is not positive.  Without
    any arm it is the [ArgumentError] of [argmax]. *)
Theorem choose_arm_returns_iff (posts : list (list Z)) :
  (is_Ok (choose_arm quantile posts) <-> posts <> [] /\ Forall plottable posts)
  /\ raises_only [BoundsError; DomainError; ArgumentError]
       (choose_arm quantile posts)
  /\ (posts = [] -> choose_arm quantile posts = Raise ArgumentError)
  /\ (forall ok post rest, posts = ok ++ post :: rest -> Forall plottable ok ->
        ((length post < 2)%nat -> choose_arm quantile posts = Raise BoundsError)
        /\ (forall a b tl, post = a :: b :: tl -> ~ (0 < a /\ 0 < b) ->
              choose_arm quantile posts = Raise DomainError)).
Proof.
  rewrite choose_arm_unfold. split; [| split; [| split]].
  - split.
    + intros [arm Harm]. pose proof (proj1 (mapM_build_Ok posts)) as Hall.
      destruct (mapM build posts) as [ds|e] eqn:E; [|discriminate].
      split; [| apply Hall; by eexists].
      intros ->. simpl in E. injection E as <-. discriminate.
    + intros [Hne Hall]. rewrite <- choose_arm_unfold. by apply choose_arm_is_Ok.
  - intros e. pose proof (raises_only_mapM_build posts) as Hb.
    destruct (mapM build posts) as [ds|e'].
    + cbn [mbind result_bind]. destruct ds as [|d ds]; simpl; intros [= <-].
      set_solver.
    + simpl. intros [= <-]. specialize (Hb e' eq_refl).
      revert Hb. rewrite !elem_of_cons, elem_of_nil. tauto.
  - intros ->. reflexivity.
  - intros ok post rest -> Hok. split.
    + intros Hshort. rewrite (mapM_build_first_bad ok post rest BoundsError Hok); [done |].
      destruct post as [|a [|b tl]]; [done | done | simpl in Hshort; lia].
    + intros a b tl -> Hneg.
      rewrite (mapM_build_first_bad ok _ rest DomainError Hok); [done |].
      unfold Beta_of_post. simpl. unfold Beta. by case_decide.
Qed.

End Choose_arm_failures.


(** ** Bayesics_Coin.ipynb: the simulations run to completion *)

Section Simulation_runs.

Variable quantile : BetaDist -> Q -> Q.
Variable uniform : nat -> Q.
Variable raw_index : nat -> nat.

Lemma M_bind_Ok {A B} (m : M A) (f : A -> M B) w a w' :
  m w = (Ok a, w') -> (m ≫= f) w = f a w'.
Proof. intros H. unfold mbind, M_bind. by rewrite H. Qed.

Lemma M_bind_lift_Ok {A B} (a : A) (f : A -> M B) w :
  (lift (Ok a) ≫= f) w = f a w.
Proof. reflexivity. Qed.

Lemma argmax_range (v : list Q) arm :
  argmax v = Ok arm -> (1 <= arm <= length v)%nat.
Proof.
  destruct v as [|x v]; [discriminate |]. simpl. intros [= <-].
  destruct (findmax_from_spec v x 1 2) as (_ & _ & Hcase). cbn zeta in Hcase.
  destruct Hcase as [-> | (k & -> & Hk & _)]; simpl; [lia |].
  apply lookup_lt_Some in Hk. lia.
Qed.

Lemma choose_arm_range quant (posts : list (list Z)) arm :
  choose_arm quant posts = Ok arm -> (1 <= arm <= length posts)%nat.
Proof.
  rewrite choose_arm_unfold.
  destruct (mapM Beta_of_post posts) as [ds|e] eqn:E; [|discriminate].
  cbn [mbind result_bind]. apply length_mapM_build in E.
  destruct (argmax _) as [arm'|e] eqn:Harg; [|discriminate].
  cbn [mbind result_bind]. intros [= <-].
  apply argmax_range in Harg. rewrite length_map in Harg. lia.
Qed.

(** A parameter vector with two entries in [1..bound]. *)
Local Abbreviation bounded_pair bound :=
  (fun v : list Z => exists a b, v = [a; b] /\ 0 < a <= bound /\ 0 < b <= bound).

Lemma mapM_load_int_valid bound (w : world) (rs : list loc) :
  Forall (valid_arm bound (heap w)) rs ->
  exists vals, mapM load_int rs w = (Ok vals, w)
    /\ length vals = length rs
    /\ Forall (bounded_pair bound) vals
    /\ mapM (load_vec (heap w)) rs = Some vals.
Proof.
  induction 1 as [|r rs (a & b & Hr & Ha & Hb) _ (vals & Hrun & Hlen & Hall & Hval)].
  - exists []. by repeat split.
  - exists ([a; b] :: vals). cbn [mapM]. split; [| split; [| split]].
    + assert (Hload : load_int r w = (Ok [a; b], w)).
      { unfold load_int, load, mbind, M_bind. by rewrite Hr. }
      rewrite (M_bind_Ok _ _ _ _ _ Hload). by rewrite (M_bind_Ok _ _ _ _ _ Hrun).
    + simpl. by rewrite Hlen.
    + constructor; [by exists a, b | done].
    + rewrite Hval. unfold load_vec. rewrite Hr. reflexivity.
Qed.

Lemma valid_arm_weaken bound bound' h h' r :
  bound <= bound' -> h ⊆ h' -> valid_arm bound h r -> valid_arm bound' h' r.
Proof.
  intros Hb Hh (a & b & Hr & Ha & Hb'). exists a, b.
  split; [by eapply lookup_weaken | lia].
Qed.

Lemma probabilities_Bernoulli true_ps arm p :
  probabilities true_ps -> getindex true_ps arm = Ok p -> Bernoulli p = Ok p.
Proof.
  intros Hps Hp. apply getindex_Ok in Hp as (j & -> & Hj).
  apply (proj1 (Forall_lookup _ _) Hps) in Hj as [H0 H1].
  unfold Bernoulli.
  by rewrite (proj2 (Qle_bool_iff 0 p) H0), (proj2 (Qle_bool_iff p 1) H1).
Qed.

Lemma getindex_in_range {A} (v : list A) (i : nat) :
  (1 <= i <= length v)%nat -> exists x, getindex v i = Ok x.
Proof.
  intros [H1 H2]. destruct i as [|j]; [lia |]. simpl.
  destruct (lookup_lt_is_Some_2 v j) as [x Hx]; [lia |]. rewrite Hx. by eexists.
Qed.

(** One round of the bandit: with valid arms it throws nothing, takes one
    draw, and leaves valid arms whose parameters grew by at most one. *)
Lemma pull_runs bound posts true_ps (w : world) :
  valid_arms bound (length true_ps) (heap w) posts ->
  probabilities true_ps ->
  bound + 1 < 2 ^ 63 ->
  exists success w',
    pull quantile uniform posts true_ps w = (Ok success, w')
    /\ valid_arms (bound + 1) (length true_ps) (heap w') posts
    /\ drawn w' = S (drawn w)
    /\ frames w' = frames w
    /\ exists vals arm a b,
         value_of (heap w) posts = Some vals
         /\ getindex vals arm = Ok [a; b]
         /\ value_of (heap w') posts
            = Some (<[pred arm := [a + of_bool success; b + (1 - of_bool success)]]>
                      vals).
Proof.
  intros (rs & Hposts & Hne & Hlen & Hall) Hps Hbound.
  destruct (mapM_load_int_valid bound w rs Hall) as (vals & Hvals & Hlv & Hbv & Hval).
  assert (Hread : read_posts posts w = (Ok vals, w)).
  { unfold read_posts.
    assert (Hrefs : load_refs posts w = (Ok rs, w)).
    { unfold load_refs, load, mbind, M_bind. by rewrite Hposts. }
    by rewrite (M_bind_Ok _ _ _ _ _ Hrefs). }
  assert (Hplot : Forall plottable vals).
  { eapply Forall_impl; [exact Hbv |].
    intros v (a & b & -> & Ha & Hb). exists a, b, []. repeat split; lia. }
  assert (Hvne : vals <> []) by (destruct vals; [by destruct rs | done]).
  destruct (choose_arm_is_Ok quantile vals Hvne Hplot) as [arm Harm].
  pose proof (choose_arm_range quantile vals arm Harm) as Hrange.
  destruct (getindex_in_range true_ps arm) as [p Hp]; [lia |].
  pose proof (probabilities_Bernoulli true_ps arm p Hps Hp) as Hd.
  destruct (getindex_in_range vals arm) as [post Hpost]; [lia |].
  assert (Hpb : bounded_pair bound post).
  { apply getindex_Ok in Hpost as (j & -> & Hj).
    exact (proj1 (Forall_lookup _ _) Hbv j post Hj). }
  destruct Hpb as (a & b & -> & Ha & Hb).
  set (success := Qle_bool (uniform (drawn w)) p).
  set (w1 := mkWorld (heap w) (S (drawn w)) (frames w)).
  set (post' := [a + of_bool success; b + (1 - of_bool success)]).
  set (l := fresh (dom (heap w))).
  set (w2 := mkWorld (<[posts := VecVec (<[pred arm := l]> rs)]>
                        (<[l := VecInt post']> (heap w)))
                     (S (drawn w)) (frames w)).
  assert (Hs : 0 <= of_bool success <= 1) by (destruct success; simpl; lia).
  assert (Hrec : post_recursive [a; b] success = Ok post').
  { rewrite post_recursive_pair. unfold sub64, add64, post'.
    rewrite (wrap64_in_range (1 - of_bool success)) by (unfold in_int64; lia).
    by rewrite !wrap64_in_range by (unfold in_int64; lia). }
  assert (Hset : setindex_posts posts post' arm w1 = (Ok tt, w2)).
  { unfold setindex_posts.
    assert (Hrefs : load_refs posts w1 = (Ok rs, w1)).
    { unfold load_refs, load, mbind, M_bind. simpl. by rewrite Hposts. }
    rewrite (M_bind_Ok _ _ _ _ _ Hrefs).
    unfold alloc, mbind, M_bind, lift, store. simpl.
    rewrite setindex_Ok by lia. reflexivity. }
  assert (Hl : heap w !! l = None).
  { apply not_elem_of_dom. apply is_fresh. }
  assert (Hpl : posts <> l) by (intros ->; congruence).
  exists success, w2. split; [| split; [| split; [done | split; [done |]]]].
  - unfold pull. rewrite (M_bind_Ok _ _ _ _ _ Hread).
    unfold lift at 1. unfold mbind at 1, M_bind at 1. rewrite Harm.
    unfold lift at 1. unfold mbind at 1, M_bind at 1. rewrite Hp.
    unfold lift at 1. unfold mbind at 1, M_bind at 1. rewrite Hd.
    unfold rand_Bernoulli at 1. unfold mbind at 1, M_bind at 1.
    fold success. fold w1.
    unfold lift at 1. unfold mbind at 1, M_bind at 1. rewrite Hpost.
    unfold lift at 1. unfold mbind at 1, M_bind at 1.
    change (Qle_bool (uniform (drawn w)) p) with success.
    change (mkWorld (heap w) (S (drawn w)) (frames w)) with w1.
    rewrite Hrec.
    rewrite (M_bind_Ok _ _ _ _ _ Hset). reflexivity.
  - exists (<[pred arm := l]> rs). simpl. split; [| split; [| split]].
    + by rewrite lookup_insert_eq.
    + intros Hnil. apply (f_equal length) in Hnil.
      rewrite length_insert in Hnil. by destruct rs.
    + by rewrite length_insert.
    + apply Forall_lookup. intros i r Hi.
      destruct (decide (i = pred arm)) as [-> | Hne'].
      * rewrite list_lookup_insert_eq in Hi by lia. injection Hi as <-.
        exists (a + of_bool success), (b + (1 - of_bool success)).
        rewrite lookup_insert_ne by done. rewrite lookup_insert_eq.
        split; [done | lia].
      * rewrite list_lookup_insert_ne in Hi by done.
        pose proof (proj1 (Forall_lookup _ _) Hall i r Hi) as (a' & b' & Hr & Ha' & Hb').
        exists a', b'. split; [| lia].
        rewrite lookup_insert_ne by (intros ->; congruence).
        rewrite lookup_insert_ne by (intros <-; congruence). done.
  - exists vals, arm, a, b.
    split; [unfold value_of; by rewrite Hposts |]. split; [exact Hpost |].
    unfold value_of. simpl. rewrite lookup_insert_eq.
    apply mapM_Some. apply mapM_Some in Hval.
    apply Forall2_insert.
    + eapply Forall2_impl; [exact Hval |]. intros r v Hr.
      unfold load_vec in *.
      destruct (heap w !! r) as [[xs|?]|] eqn:E; try discriminate.
      rewrite lookup_insert_ne by (intros ->; congruence).
      rewrite lookup_insert_ne by (intros <-; congruence).
      by rewrite E.
    + unfold load_vec. rewrite lookup_insert_ne by done.
      by rewrite lookup_insert_eq.
Qed.

Lemma read_posts_runs bound n posts (w : world) :
  valid_arms bound n (heap w) posts ->
  exists vals,
    read_posts posts w = (Ok vals, w)
    /\ value_of (heap w) posts = Some vals
    /\ Forall plottable vals.
Proof.
  intros (rs & Hposts & Hne & Hlen & Hall).
  destruct (mapM_load_int_valid bound w rs Hall) as (vals & Hvals & Hlv & Hbv & Hval).
  exists vals. split; [| split].
  - unfold read_posts.
    assert (Hrefs : load_refs posts w = (Ok rs, w)).
    { unfold load_refs, load, mbind, M_bind. by rewrite Hposts. }
    by rewrite (M_bind_Ok _ _ _ _ _ Hrefs).
  - unfold value_of. by rewrite Hposts.
  - eapply Forall_impl; [exact Hbv |].
    intros v (a & b & -> & Ha & Hb). exists a, b, []. repeat split; lia.
Qed.

Lemma total_count_insert (vals : list (list Z)) (i : nat) (a b s : Z) :
  vals !! i = Some [a; b] ->
  total_count (<[i := [a + s; b + (1 - s)]]> vals) = total_count vals + 1.
Proof.
  unfold total_count. revert i.
  induction vals as [|v vals IH]; intros [|i] Hi; simpl in *; try discriminate.
  - injection Hi as ->. simpl. lia.
  - rewrite (IH i Hi). lia.
Qed.

Lemma plot_posts_runs bound n posts true_ps k (w : world) :
  valid_arms bound n (heap w) posts ->
  exists vals,
    plot_posts posts true_ps k w
    = (Ok tt, mkWorld (heap w) (drawn w) (frames w ++ [(k, vals)]))
    /\ value_of (heap w) posts = Some vals
    /\ Forall plottable vals.
Proof.
  intros Hv. destruct (read_posts_runs bound n posts w Hv) as (vals & Hread & Hval & Hplot).
  exists vals. split; [| done].
  unfold plot_posts. rewrite (M_bind_Ok _ _ _ _ _ Hread).
  destruct (proj2 (mapM_build_Ok vals) Hplot) as [ds Hds].
  change (mapM _ vals) with (mapM Beta_of_post vals). rewrite Hds.
  reflexivity.
Qed.

Lemma explore_and_exploit_plot_loop_runs posts true_ps (k : nat) :
  forall n bound w vals,
  valid_arms bound (length true_ps) (heap w) posts ->
  value_of (heap w) posts = Some vals ->
  probabilities true_ps ->
  bound + Z.of_nat k < 2 ^ 63 ->
  exists w' shown,
    explore_and_exploit_plot_loop quantile uniform k n posts true_ps w = (Ok tt, w')
    /\ frames w' = frames w ++ shown
    /\ length shown = k
    /\ (forall i, (i < k)%nat -> exists vals_i,
          shown !! i = Some ((n + i)%nat, vals_i)
          /\ length vals_i = length vals
          /\ Forall plottable vals_i
          /\ total_count vals_i = total_count vals + Z.of_nat (S i))
    /\ drawn w' = (drawn w + k)%nat.
Proof.
  induction k as [|k IH]; intros n bound w vals Hv Hval Hps Hb.
  - exists w, []. simpl. rewrite app_nil_r.
    split; [done |]. split; [done |]. split; [done |].
    split; [intros i Hi; lia | lia].
  - cbn [explore_and_exploit_plot_loop].
    destruct (pull_runs bound posts true_ps w Hv Hps)
      as (s & w1 & Hpull & Hv1 & Hd1 & Hf1 & vals0 & arm & a & b & Hval0 & Harm & Hval1);
      [lia |].
    rewrite Hval in Hval0. injection Hval0 as <-.
    rewrite (M_bind_Ok _ _ _ _ _ Hpull).
    destruct (plot_posts_runs _ _ posts true_ps n w1 Hv1) as (vals1 & Hplot & Hval1' & Hp1).
    rewrite Hval1 in Hval1'. injection Hval1' as <-.
    rewrite (M_bind_Ok _ _ _ _ _ Hplot).
    set (vals1 := <[pred arm := [a + of_bool s; b + (1 - of_bool s)]]> vals) in *.
    set (w2 := mkWorld (heap w1) (drawn w1) (frames w1 ++ [(n, vals1)])).
    destruct (IH (S n) (bound + 1) w2 vals1 Hv1 Hval1 Hps)
      as (w' & shown & Hrun & Hf & Hlen & Hshown & Hd); [lia |].
    exists w', ((n, vals1) :: shown). rewrite Hrun.
    split; [done |].
    split; [rewrite Hf; unfold w2; simpl; by rewrite Hf1, <- app_assoc |].
    split; [simpl; lia |].
    assert (Htot : total_count vals1 = total_count vals + 1).
    { apply getindex_Ok in Harm as (j & -> & Hj). by apply total_count_insert. }
    split.
    + intros [|i] Hi.
      * exists vals1. rewrite Nat.add_0_r. split; [done |].
        split; [unfold vals1; by rewrite length_insert |]. split; [done |]. lia.
      * destruct (Hshown i ltac:(lia)) as (vals_i & Hi1 & Hi2 & Hi3 & Hi4).
        exists vals_i. simpl. rewrite Hi1.
        split; [do 2 f_equal; lia |].
        split; [rewrite Hi2; unfold vals1; by rewrite length_insert |].
        split; [done | lia].
    + rewrite Hd. unfold w2. simpl. lia.
Qed.

Lemma explore_and_exploit_plot_total (bound : Z) (priors : loc) (true_ps : list Q)
    (sample_size : Z) (vals : list (list Z)) (w : world) :
  valid_arms bound (length true_ps) (heap w) priors ->
  value_of (heap w) priors = Some vals ->
  probabilities true_ps ->
  0 <= sample_size -> bound + sample_size < 2 ^ 63 ->
  exists w' shown,
    explore_and_exploit_plot quantile uniform priors true_ps sample_size w
    = (Ok tt, w')
    /\ frames w' = frames w ++ shown
    /\ length shown = Z.to_nat sample_size
    /\ (forall n, (1 <= n <= Z.to_nat sample_size)%nat -> exists vals_n,
          getindex shown n = Ok (n, vals_n)
          /\ length vals_n = length vals
          /\ Forall plottable vals_n
          /\ total_count vals_n = total_count vals + Z.of_nat n)
    /\ drawn w' = (drawn w + Z.to_nat sample_size)%nat
    /\ heap w ⊆ heap w'.
Proof.
  intros Hv Hval Hps Hn Hb.
  pose proof Hv as (rs & Hpriors & Hne & Hlen & Hall).
  set (posts := fresh (dom (heap w))).
  set (w0 := mkWorld (<[posts := VecVec rs]> (heap w)) (drawn w) (frames w)).
  assert (Hfresh : heap w !! posts = None).
  { apply not_elem_of_dom. apply is_fresh. }
  assert (Hsub : heap w ⊆ heap w0) by (by apply insert_subseteq).
  assert (Hcopy : copy priors w = (Ok posts, w0)).
  { unfold copy, load, alloc, mbind, M_bind. by rewrite Hpriors. }
  assert (Hv0 : valid_arms bound (length true_ps) (heap w0) posts).
  { exists rs. simpl. split; [by rewrite lookup_insert_eq |].
    split; [done |]. split; [done |].
    eapply Forall_impl; [exact Hall |]. intros r Hr.
    eapply valid_arm_weaken; [reflexivity | exact Hsub | exact Hr]. }
  assert (Hval0 : value_of (heap w0) posts = Some vals).
  { pose proof (value_of_weaken _ _ _ _ Hsub Hval) as Hw.
    unfold value_of in *. simpl in *. rewrite lookup_insert_eq.
    destruct (decide (priors = posts)) as [-> | Hne']; [congruence |].
    rewrite lookup_insert_ne in Hw by done. by rewrite Hpriors in Hw. }
  destruct (explore_and_exploit_plot_loop_runs posts true_ps (Z.to_nat sample_size)
              1 bound w0 vals Hv0 Hval0 Hps)
    as (w' & shown & Hrun & Hf & Hlen' & Hshown & Hd); [lia |].
  exists w', shown.
  assert (Hres : explore_and_exploit_plot quantile uniform priors true_ps sample_size w
                 = (Ok tt, w')).
  { unfold explore_and_exploit_plot. by rewrite (M_bind_Ok _ _ _ _ _ Hcopy). }
  split; [exact Hres |]. split; [exact Hf |]. split; [exact Hlen' |].
  split.
  { intros [|n] Hn'; [lia |].
    destruct (Hshown n ltac:(lia)) as (vals_n & H1 & H2 & H3 & H4).
    exists vals_n. cbn [getindex]. rewrite H1. done. }
  split; [exact Hd |].
  pose proof (explore_and_exploit_plot_preserves quantile uniform priors true_ps
                sample_size w) as Hpres.
  by rewrite Hres in Hpres.
Qed.

Lemma explore_and_exploit_loop_runs (n : nat) : forall bound posts true_ps successes w,
  valid_arms bound (length true_ps) (heap w) posts ->
  probabilities true_ps ->
  bound + Z.of_nat n < 2 ^ 63 ->
  0 <= successes -> successes + Z.of_nat n < 2 ^ 63 ->
  exists total w',
    explore_and_exploit_loop quantile uniform n posts true_ps successes w
    = (Ok total, w')
    /\ successes <= total <= successes + Z.of_nat n
    /\ drawn w' = (drawn w + n)%nat
    /\ frames w' = frames w.
Proof.
  induction n as [|n IH]; intros bound posts true_ps successes w Hv Hps Hb Hs Hso.
  - exists successes, w. simpl. repeat split; [lia | lia | lia].
  - cbn [explore_and_exploit_loop].
    destruct (pull_runs bound posts true_ps w Hv Hps)
      as (s & w1 & Hpull & Hv1 & Hd1 & Hf1 & _); [lia |].
    rewrite (M_bind_Ok _ _ _ _ _ Hpull).
    assert (H01 : 0 <= of_bool s <= 1) by (destruct s; simpl; lia).
    unfold add64. rewrite wrap64_in_range by (unfold in_int64; lia).
    destruct (IH (bound + 1) posts true_ps (successes + of_bool s) w1 Hv1 Hps)
      as (total & w' & Hrun & Htot & Hd & Hf); try lia.
    exists total, w'. rewrite Hrun. repeat split; [lia | lia | lia | congruence].
Qed.

Lemma gain_int_div (successes sample_size : Z) :
  0 <= successes <= sample_size -> 0 < sample_size ->
  gain (int_div successes sample_size).
Proof.
  intros Hs Hn. unfold int_div. case_decide as Hz; [lia |].
  eexists. split; [reflexivity |].
  assert (Hpos : (0 < inject_Z sample_size)%Q).
  { change 0%Q with (inject_Z 0). rewrite <- Zlt_Qlt. lia. }
  split.
  - apply Qle_shift_div_l; [exact Hpos |]. rewrite Qmult_0_l.
    change 0%Q with (inject_Z 0). rewrite <- Zle_Qle. lia.
  - apply Qle_shift_div_r; [exact Hpos |]. rewrite Qmult_1_l.
    rewrite <- Zle_Qle. lia.
Qed.

Lemma explore_and_exploit_total (bound : Z) (priors : loc) (true_ps : list Q)
    (sample_size : Z) (w : world) :
  valid_arms bound (length true_ps) (heap w) priors ->
  probabilities true_ps ->
  0 <= sample_size -> bound + sample_size < 2 ^ 63 ->
  exists successes w',
    explore_and_exploit quantile uniform priors true_ps sample_size w
    = (Ok (int_div successes sample_size), w')
    /\ 0 <= successes <= sample_size
    /\ (0 < sample_size -> gain (int_div successes sample_size))
    /\ (sample_size = 0 -> int_div successes sample_size = NaN)
    /\ drawn w' = (drawn w + Z.to_nat sample_size)%nat
    /\ frames w' = frames w
    /\ heap w ⊆ heap w'.
Proof.
  intros Hv Hps Hn Hb.
  pose proof Hv as (rs & Hpriors & Hne & Hlen & Hall).
  assert (0 < bound).
  { destruct rs as [|r rs]; [done |].
    apply Forall_cons in Hall as [(a & b & _ & Ha & _) _]. lia. }
  set (posts := fresh (dom (heap w))).
  set (w0 := mkWorld (<[posts := VecVec rs]> (heap w)) (drawn w) (frames w)).
  assert (Hfresh : heap w !! posts = None).
  { apply not_elem_of_dom. apply is_fresh. }
  assert (Hcopy : copy priors w = (Ok posts, w0)).
  { unfold copy, load, alloc, mbind, M_bind. by rewrite Hpriors. }
  assert (Hv0 : valid_arms bound (length true_ps) (heap w0) posts).
  { exists rs. simpl. split; [by rewrite lookup_insert_eq |].
    split; [done |]. split; [done |].
    eapply Forall_impl; [exact Hall |]. intros r Hr.
    eapply valid_arm_weaken; [reflexivity | | exact Hr].
    by apply insert_subseteq. }
  destruct (explore_and_exploit_loop_runs (Z.to_nat sample_size) bound posts
              true_ps 0 w0 Hv0 Hps) as (total & w' & Hrun & Htot & Hd & Hf); try lia.
  exists total, w'.
  assert (Hres : explore_and_exploit quantile uniform priors true_ps sample_size w
                 = (Ok (int_div total sample_size), w')).
  { unfold explore_and_exploit. rewrite (M_bind_Ok _ _ _ _ _ Hcopy).
    by rewrite (M_bind_Ok _ _ _ _ _ Hrun). }
  split; [exact Hres |]. split; [lia |].
  split; [intros Hpos; apply gain_int_div; lia |].
  split.
  { intros ->. unfold int_div. simpl in Htot.
    case_decide; [| lia]. case_decide; [done | lia]. }
  split; [exact Hd |]. split; [exact Hf |].
  pose proof (explore_and_exploit_preserves quantile uniform priors true_ps
                sample_size w) as Hpres.
  by rewrite Hres in Hpres.
Qed.

Lemma rand_element_runs (true_ps : list Q) (w : world) :
  true_ps <> [] -> probabilities true_ps ->
  exists p, rand_element raw_index true_ps w
            = (Ok p, mkWorld (heap w) (S (drawn w)) (frames w))
            /\ Bernoulli p = Ok p.
Proof.
  intros Hne Hps. destruct true_ps as [|p0 ps]; [done |].
  eexists. split; [reflexivity |].
  set (i := (raw_index (drawn w) mod length (p0 :: ps))%nat).
  assert (Hi : (i < length (p0 :: ps))%nat) by (apply Nat.mod_upper_bound; done).
  destruct (proj1 (Forall_nth _ p0 _) Hps i Hi) as [H0 H1].
  unfold Bernoulli.
  by rewrite (proj2 (Qle_bool_iff 0 _) H0), (proj2 (Qle_bool_iff _ 1) H1).
Qed.

Lemma random_selection_loop_runs (true_ps : list Q) (n : nat) : forall successes w,
  true_ps <> [] -> probabilities true_ps ->
  0 <= successes -> successes + Z.of_nat n < 2 ^ 63 ->
  exists total,
    random_selection_loop uniform raw_index n true_ps successes w
    = (Ok total, mkWorld (heap w) (drawn w + 2 * n) (frames w))
    /\ successes <= total <= successes + Z.of_nat n.
Proof.
  induction n as [|n IH]; intros successes w Hne Hps Hs Hso.
  - exists successes. simpl. rewrite Nat.add_0_r. destruct w. split; [done | lia].
  - cbn [random_selection_loop].
    destruct (rand_element_runs true_ps w Hne Hps) as (p & Hp & Hd).
    rewrite (M_bind_Ok _ _ _ _ _ Hp).
    unfold lift at 1. unfold mbind at 1, M_bind at 1. rewrite Hd.
    unfold rand_Bernoulli at 1. unfold mbind at 1, M_bind at 1. cbn [heap drawn frames].
    set (s := Qle_bool _ p).
    assert (H01 : 0 <= of_bool s <= 1) by (destruct s; simpl; lia).
    unfold add64. rewrite wrap64_in_range by (unfold in_int64; lia).
    destruct (IH (successes + of_bool s)
                (mkWorld (heap w) (S (S (drawn w))) (frames w)) Hne Hps)
      as (total & Hrun & Htot); try lia.
    exists total. rewrite Hrun. cbn [heap drawn frames].
    replace (drawn w + 2 * S n)%nat with (S (S (drawn w)) + 2 * n)%nat by lia.
    split; [done | lia].
Qed.

Lemma random_selection_total (true_ps : list Q) (sample_size : Z) (w : world) :
  probabilities true_ps ->
  0 <= sample_size < 2 ^ 63 ->
  (true_ps <> [] ->
   exists successes,
     random_selection uniform raw_index true_ps sample_size w
     = (Ok (int_div successes sample_size),
        mkWorld (heap w) (drawn w + 2 * Z.to_nat sample_size) (frames w))
     /\ 0 <= successes <= sample_size
     /\ (0 < sample_size -> gain (int_div successes sample_size)))
  /\ (true_ps = [] -> 0 < sample_size ->
      random_selection uniform raw_index true_ps sample_size w
      = (Raise ArgumentError, w)).
Proof.
  intros Hps Hn. split.
  - intros Hne.
    destruct (random_selection_loop_runs true_ps (Z.to_nat sample_size) 0 w Hne Hps)
      as (total & Hrun & Htot); try lia.
    exists total. unfold random_selection. rewrite (M_bind_Ok _ _ _ _ _ Hrun).
    split; [done |]. split; [lia |]. intros Hpos. apply gain_int_div; lia.
  - intros -> Hpos. unfold random_selection.
    destruct (Z.to_nat sample_size) as [|n] eqn:E; [lia |]. reflexivity.
Qed.

(** With at least one arm, a true probability for every arm, positive
    parameters and a sample size that cannot overflow the counts,
    [explore_and_exploit] throws nothing: it returns [successes /
    sample_size] for a count of successes between 0 and [sample_size], after
    exactly [sample_size] draws from the random stream, and leaves every
    object of the caller's store as it was.  The result is an average gain
    in [[0, 1]] when [sample_size] is positive and [NaN] when it is 0. *)
Theorem explore_and_exploit_runs (bound : Z) (priors : loc) (true_ps : list Q)
    (sample_size : Z) (w : world) :
  valid_arms bound (length true_ps) (heap w) priors ->
  probabilities true_ps ->
  0 <= sample_size -> bound + sample_size < 2 ^ 63 ->
  exists successes w',
    explore_and_exploit quantile uniform priors true_ps sample_size w
    = (Ok (int_div successes sample_size), w')
    /\ 0 <= successes <= sample_size
    /\ (0 < sample_size -> gain (int_div successes sample_size))
    /\ (sample_size = 0 -> int_div successes sample_size = NaN)
    /\ drawn w' = (drawn w + Z.to_nat sample_size)%nat
    /\ frames w' = frames w
    /\ heap w ⊆ heap w'.
Proof. apply explore_and_exploit_total. Qed.

(** With at least one true probability, [random_selection] throws nothing:
    it returns [successes / sample_size] for a count of successes between 0
    and [sample_size], takes exactly two draws per round (the arm, then the
    coin) and touches no array.  Without any arm the first round throws
    [ArgumentError]. *)
Theorem random_selection_runs (true_ps : list Q) (sample_size : Z) (w : world) :
  probabilities true_ps ->
  0 <= sample_size < 2 ^ 63 ->
  (true_ps <> [] ->
   exists successes,
     random_selection uniform raw_index true_ps sample_size w
     = (Ok (int_div successes sample_size),
        mkWorld (heap w) (drawn w + 2 * Z.to_nat sample_size) (frames w))
     /\ 0 <= successes <= sample_size
     /\ (0 < sample_size -> gain (int_div successes sample_size)))
  /\ (true_ps = [] -> 0 < sample_size ->
      random_selection uniform raw_index true_ps sample_size w
      = (Raise ArgumentError, w)).
Proof. apply random_selection_total. Qed.

(** The animated simulation under the same conditions: it throws nothing
    and shows one frame per round, numbered from 1; frame [n] shows as many
    arms as there are priors, all with positive parameters, and the
    parameters of all arms together have grown by exactly [n], one count
    per observation.  One draw is taken per round and the caller's store is
    left as it was. *)
Theorem explore_and_exploit_plot_runs (bound : Z) (priors : loc) (true_ps : list Q)
    (sample_size : Z) (vals : list (list Z)) (w : world) :
  valid_arms bound (length true_ps) (heap w) priors ->
  value_of (heap w) priors = Some vals ->
  probabilities true_ps ->
  0 <= sample_size -> bound + sample_size < 2 ^ 63 ->
  exists w' shown,
    explore_and_exploit_plot quantile uniform priors true_ps sample_size w
    = (Ok tt, w')
    /\ frames w' = frames w ++ shown
    /\ length shown = Z.to_nat sample_size
    /\ (forall n, (1 <= n <= Z.to_nat sample_size)%nat -> exists vals_n,
          getindex shown n = Ok (n, vals_n)
          /\ length vals_n = length vals
          /\ Forall plottable vals_n
          /\ total_count vals_n = total_count vals + Z.of_nat n)
    /\ drawn w' = (drawn w + Z.to_nat sample_size)%nat
    /\ heap w ⊆ heap w'.
Proof. apply explore_and_exploit_plot_total. Qed.

Lemma valid_arms_weaken bound n h h' l :
  h ⊆ h' -> valid_arms bound n h l -> valid_arms bound n h' l.
Proof.
  intros Hh (rs & Hl & Hne & Hlen & Hall). exists rs.
  split; [by eapply lookup_weaken |]. split; [done |]. split; [done |].
  eapply Forall_impl; [exact Hall |]. intros r Hr.
  by eapply valid_arm_weaken.
Qed.

Section Comparison.

Variables (bound : Z) (priors : loc) (true_ps : list Q) (sample_size : Z).
Hypothesis Hps : probabilities true_ps.
Hypothesis Hsize : 0 < sample_size.
Hypothesis Hbound : bound + sample_size < 2 ^ 63.

Local Abbreviation written :=
  (fun x : option float => exists g, x = Some g /\ gain g).

Lemma plot_dists_strategies_multi_loop_runs (k : nat) : forall n dr de w,
  valid_arms bound (length true_ps) (heap w) priors ->
  (1 <= n)%nat -> length dr = (n - 1 + k)%nat -> length de = (n - 1 + k)%nat ->
  exists dr' de' w',
    plot_dists_strategies_multi_loop quantile uniform raw_index k n priors
      true_ps sample_size dr de w = (Ok (dr', de'), w')
    /\ length dr' = length dr /\ length de' = length de
    /\ (forall i, (i < n - 1)%nat -> dr' !! i = dr !! i /\ de' !! i = de !! i)
    /\ (forall i x, (n - 1 <= i)%nat -> dr' !! i = Some x -> written x)
    /\ (forall i x, (n - 1 <= i)%nat -> de' !! i = Some x -> written x)
    /\ drawn w' = (drawn w + k * (3 * Z.to_nat sample_size))%nat
    /\ frames w' = frames w
    /\ heap w ⊆ heap w'.
Proof.
  induction k as [|k IH]; intros n dr de w Hv Hn Hdr Hde.
  - exists dr, de, w. simpl. split; [done |]. split; [done |]. split; [done |].
    split; [done |].
    split; [intros i x Hi Hx; apply lookup_lt_Some in Hx; lia |].
    split; [intros i x Hi Hx; apply lookup_lt_Some in Hx; lia |].
    split; [lia |]. done.
  - cbn [plot_dists_strategies_multi_loop].
    assert (Hne : true_ps <> []).
    { destruct Hv as (rs & _ & Hrs & Hlen & _).
      destruct true_ps; [destruct rs; [done | simpl in Hlen; lia] | done]. }
    assert (Hb0 : 0 < bound).
    { destruct Hv as (rs & _ & Hrs & _ & Hall). destruct rs as [|r rs]; [done |].
      apply Forall_cons in Hall as [(a & b & _ & Ha & _) _]. lia. }
    destruct (random_selection_total true_ps sample_size w Hps) as [Hrandom _];
      [lia |].
    destruct (Hrandom Hne) as (s1 & Hrun1 & Hs1 & Hg1).
    rewrite (M_bind_Ok _ _ _ _ _ Hrun1).
    rewrite (setindex_Ok dr) by lia. rewrite M_bind_lift_Ok.
    set (w1 := mkWorld (heap w) (drawn w + 2 * Z.to_nat sample_size) (frames w)).
    destruct (explore_and_exploit_total bound priors true_ps sample_size w1 Hv Hps)
      as (s2 & w2 & Hrun2 & Hs2 & Hg2 & _ & Hd2 & Hf2 & Hh2); [lia | lia |].
    rewrite (M_bind_Ok _ _ _ _ _ Hrun2).
    rewrite (setindex_Ok de) by lia. rewrite M_bind_lift_Ok.
    destruct (IH (S n) (<[pred n := Some (int_div s1 sample_size)]> dr)
                (<[pred n := Some (int_div s2 sample_size)]> de) w2)
      as (dr' & de' & w' & Hrun & Hldr & Hlde & Hkeep & Hwr & Hwe & Hd & Hf & Hh).
    { by eapply valid_arms_weaken. }
    { lia. }
    { rewrite length_insert. lia. }
    { rewrite length_insert. lia. }
    exists dr', de', w'. rewrite Hrun. rewrite !length_insert in *.
    split; [done |]. split; [done |]. split; [done |].
    split; [| split; [| split; [| split; [| split]]]].
    + intros i Hi. destruct (Hkeep i) as [H1 H2]; [lia |].
      rewrite H1, H2. by rewrite !list_lookup_insert_ne by lia.
    + intros i x Hi Hx. destruct (decide (i = pred n)) as [-> | Hin].
      * destruct (Hkeep (pred n)) as [H1 _]; [lia |].
        rewrite H1, list_lookup_insert_eq in Hx by lia. injection Hx as <-.
        eexists. split; [reflexivity |]. by apply Hg1.
      * apply (Hwr i x); [lia | done].
    + intros i x Hi Hx. destruct (decide (i = pred n)) as [-> | Hin].
      * destruct (Hkeep (pred n)) as [_ H2]; [lia |].
        rewrite H2, list_lookup_insert_eq in Hx by lia. injection Hx as <-.
        eexists. split; [reflexivity |]. by apply Hg2.
      * apply (Hwe i x); [lia | done].
    + rewrite Hd, Hd2. unfold w1. simpl. lia.
    + rewrite Hf, Hf2. done.
    + etrans; [exact Hh2 | exact Hh].
Qed.

Lemma plot_dists_strategies_multi_total (number_tests : Z) (w : world) :
  valid_arms bound (length true_ps) (heap w) priors ->
  0 <= number_tests ->
  exists dist_random dist_explore_exploit w',
    plot_dists_strategies_multi quantile uniform raw_index priors true_ps
      sample_size number_tests w
    = (Ok (dist_random, dist_explore_exploit), w')
    /\ length dist_random = Z.to_nat number_tests
    /\ length dist_explore_exploit = Z.to_nat number_tests
    /\ Forall written dist_random
    /\ Forall written dist_explore_exploit
    /\ drawn w' = (drawn w + Z.to_nat number_tests * (3 * Z.to_nat sample_size))%nat
    /\ frames w' = frames w
    /\ heap w ⊆ heap w'.
Proof.
  intros Hv Hn. unfold plot_dists_strategies_multi, undef_vector.
  case_decide as Hneg; [lia |]. rewrite !M_bind_lift_Ok.
  set (undef := replicate (Z.to_nat number_tests) None).
  destruct (plot_dists_strategies_multi_loop_runs (Z.to_nat number_tests) 1
              undef undef w Hv)
    as (dr & de & w' & Hrun & Hldr & Hlde & _ & Hwr & Hwe & Hd & Hf & Hh);
    [lia | unfold undef; rewrite length_replicate; lia ..|].
  exists dr, de, w'. unfold undef in *. rewrite length_replicate in *.
  split; [exact Hrun |]. split; [done |]. split; [done |].
  split; [apply Forall_lookup; intros i x; apply Hwr; lia |].
  split; [apply Forall_lookup; intros i x; apply Hwe; lia |].
  done.
Qed.

End Comparison.

(** With valid priors, true probabilities and a positive sample size that
    cannot overflow the counts, [plot_dists_strategies_multi] throws
    nothing: every entry of both [undef] arrays is written before the
    histograms read them, each entry is an average gain in [[0, 1]], every
    test starts from the same priors (the caller's store is left as it
    was), and the run takes [3 * sample_size] draws per test. *)
Theorem plot_dists_strategies_multi_runs (bound : Z) (priors : loc)
    (true_ps : list Q) (sample_size number_tests : Z) (w : world) :
  probabilities true_ps ->
  0 < sample_size -> bound + sample_size < 2 ^ 63 ->
  valid_arms bound (length true_ps) (heap w) priors ->
  0 <= number_tests ->
  exists dist_random dist_explore_exploit w',
    plot_dists_strategies_multi quantile uniform raw_index priors true_ps
      sample_size number_tests w
    = (Ok (dist_random, dist_explore_exploit), w')
    /\ length dist_random = Z.to_nat number_tests
    /\ length dist_explore_exploit = Z.to_nat number_tests
    /\ Forall (fun x => exists g, x = Some g /\ gain g) dist_random
    /\ Forall (fun x => exists g, x = Some g /\ gain g) dist_explore_exploit
    /\ drawn w' = (drawn w + Z.to_nat number_tests * (3 * Z.to_nat sample_size))%nat
    /\ frames w' = frames w
    /\ heap w ⊆ heap w'.
Proof.
  intros Hps Hsize Hbound.
  exact (plot_dists_strategies_multi_total bound priors true_ps sample_size
           Hps Hsize Hbound number_tests w).
Qed.

End Simulation_runs.

Lemma explore_and_exploit_runs_witness :
  exists successes w',
    explore_and_exploit mean_stub (fun _ => 0%Q) 1%positive [1 # 2; 3 # 4]%Q 3
      two_arms
    = (Ok (int_div successes 3), w')
    /\ 0 <= successes <= 3
    /\ (0 < 3 -> gain (int_div successes 3))
    /\ (3 = 0 -> int_div successes 3 = NaN)
    /\ drawn w' = (drawn two_arms + Z.to_nat 3)%nat
    /\ frames w' = frames two_arms
    /\ heap two_arms ⊆ heap w'.
Proof.
  apply (explore_and_exploit_runs mean_stub (fun _ => 0%Q) 1 1%positive
           [1 # 2; 3 # 4]%Q 3 two_arms); [| | lia | lia].
  - exists [2%positive; 3%positive]. split; [reflexivity |].
    split; [done |]. split; [simpl; lia |].
    repeat constructor; exists 1, 1; (split; [reflexivity | lia]).
  - repeat constructor; unfold Qle; simpl; lia.
Defined.

Lemma explore_and_exploit_plot_runs_witness :
  exists w' shown,
    explore_and_exploit_plot mean_stub (fun _ => 0%Q) 1%positive [1 # 2; 3 # 4]%Q 3
      two_arms
    = (Ok tt, w')
    /\ frames w' = frames two_arms ++ shown
    /\ length shown = Z.to_nat 3
    /\ (forall n, (1 <= n <= Z.to_nat 3)%nat -> exists vals_n,
          getindex shown n = Ok (n, vals_n)
          /\ length vals_n = length [[1; 1]; [1; 1]]
          /\ Forall plottable vals_n
          /\ total_count vals_n = total_count [[1; 1]; [1; 1]] + Z.of_nat n)
    /\ drawn w' = (drawn two_arms + Z.to_nat 3)%nat
    /\ heap two_arms ⊆ heap w'.
Proof.
  apply (explore_and_exploit_plot_runs mean_stub (fun _ => 0%Q) 1 1%positive
           [1 # 2; 3 # 4]%Q 3 [[1; 1]; [1; 1]] two_arms); [| | | lia | lia].
  - exists [2%positive; 3%positive]. split; [reflexivity |].
    split; [done |]. split; [simpl; lia |].
    repeat constructor; exists 1, 1; (split; [reflexivity | lia]).
  - reflexivity.
  - repeat constructor; unfold Qle; simpl; lia.
Defined.

Lemma random_selection_runs_witness :
  (([1 # 2; 3 # 4]%Q : list Q) <> [] ->
   exists successes,
     random_selection (fun _ => 0%Q) (fun n => n) [1 # 2; 3 # 4]%Q 3 two_arms
     = (Ok (int_div successes 3),
        mkWorld (heap two_arms) (drawn two_arms + 2 * Z.to_nat 3) (frames two_arms))
     /\ 0 <= successes <= 3
     /\ (0 < 3 -> gain (int_div successes 3)))
  /\ (([1 # 2; 3 # 4]%Q : list Q) = [] -> 0 < 3 ->
      random_selection (fun _ => 0%Q) (fun n => n) [1 # 2; 3 # 4]%Q 3 two_arms
      = (Raise ArgumentError, two_arms)).
Proof.
  apply (random_selection_runs (fun _ => 0%Q) (fun n => n) [1 # 2; 3 # 4]%Q 3
           two_arms); [| lia].
  repeat constructor; unfold Qle; simpl; lia.
Defined.

Lemma plot_dists_strategies_multi_runs_witness :
  exists dist_random dist_explore_exploit w',
    plot_dists_strategies_multi mean_stub (fun _ => 0%Q) (fun n => n) 1%positive
      [1 # 2; 3 # 4]%Q 3 2 two_arms
    = (Ok (dist_random, dist_explore_exploit), w')
    /\ length dist_random = Z.to_nat 2
    /\ length dist_explore_exploit = Z.to_nat 2
    /\ Forall (fun x => exists g, x = Some g /\ gain g) dist_random
    /\ Forall (fun x => exists g, x = Some g /\ gain g) dist_explore_exploit
    /\ drawn w' = (drawn two_arms + Z.to_nat 2 * (3 * Z.to_nat 3))%nat
    /\ frames w' = frames two_arms
    /\ heap two_arms ⊆ heap w'.
Proof.
  apply (plot_dists_strategies_multi_runs mean_stub (fun _ => 0%Q) (fun n => n) 1
           1%positive [1 # 2; 3 # 4]%Q 3 2 two_arms); [| lia | lia | | lia].
  - repeat constructor; unfold Qle; simpl; lia.
  - exists [2%positive; 3%positive]. split; [reflexivity |].
    split; [done |]. split; [simpl; lia |].
    repeat constructor; exists 1, 1; (split; [reflexivity | lia]).
Defined.

(** A negative number of tests fails when the first array is allocated. *)
Example plot_dists_strategies_multi_negative :
  (plot_dists_strategies_multi mean_stub (fun _ => 0%Q) (fun n => n) 1%positive
     [1 # 2; 3 # 4]%Q 3 (-1) two_arms).1 = Raise ArgumentError.
Proof. reflexivity. Qed.

End Coin_updating_facts.

(** ** The VB notebook: the generator and the two-block dynamics *)

Section VB_generator_facts.
Import Explore_VB.
Open Scope R_scope.

Section Written_arrays.

Variable randn : nat -> R.
Variables (N D : nat) (a : matrix) (x_0 : vec) (std_noise_x std_noise_y : R).

Local Abbreviation generated_upto :=
  (generated_upto randn N D a x_0 std_noise_x std_noise_y).





End Written_arrays.



(** *** The two-block system in closed form *)

(** The factor by which the temperature difference shrinks per step. *)
Local Abbreviation decay Dt mcp_1 mcp_2 k := (1 - Dt * k * (/ mcp_1 + / mcp_2)).

(** The temperature both blocks tend to: the mean of the initial
    temperatures, weighted with the heat capacities. *)
Local Abbreviation equilibrium mcp_1 mcp_2 x_1 x_2 :=
  ((mcp_1 * x_1 + mcp_2 * x_2) / (mcp_1 + mcp_2)).

Lemma two_block_step (Dt mcp_1 mcp_2 k T d : R) :
  mcp_1 <> 0 -> mcp_2 <> 0 -> mcp_1 + mcp_2 <> 0 ->
  matvec (transition 2 Dt (diag [mcp_1; mcp_2]) (K_2 k))
    [T + mcp_2 / (mcp_1 + mcp_2) * d; T - mcp_1 / (mcp_1 + mcp_2) * d]
  = [T + mcp_2 / (mcp_1 + mcp_2) * (decay Dt mcp_1 mcp_2 k * d);
     T - mcp_1 / (mcp_1 + mcp_2) * (decay Dt mcp_1 mcp_2 k * d)].
Proof.
  intros H1 H2 H12. compute_arrays. f_equal; [|f_equal]; field; done.
Qed.

Lemma two_block_powers (Dt mcp_1 mcp_2 k x_1 x_2 : R) (n : nat) :
  mcp_1 <> 0 -> mcp_2 <> 0 -> mcp_1 + mcp_2 <> 0 ->
  matvec (mpow 2 (transition 2 Dt (diag [mcp_1; mcp_2]) (K_2 k)) n) [x_1; x_2]
  = [equilibrium mcp_1 mcp_2 x_1 x_2
       + mcp_2 / (mcp_1 + mcp_2) * (decay Dt mcp_1 mcp_2 k ^ n * (x_1 - x_2));
     equilibrium mcp_1 mcp_2 x_1 x_2
       - mcp_1 / (mcp_1 + mcp_2) * (decay Dt mcp_1 mcp_2 k ^ n * (x_1 - x_2))].
Proof.
  intros H1 H2 H12. induction n as [|n IH].
  - rewrite (matvec_identity 2) by done. f_equal; [|f_equal]; simpl; field; done.
  - rewrite matvec_mpow_S by done. rewrite IH, two_block_step by done.
    f_equal; [|f_equal]; simpl; ring.
Qed.

(** The latent temperatures of the two-block experiment in closed form.
    Without process noise, row [n] of [x] is the capacity-weighted mean of
    the initial temperatures plus, respectively minus, a share of the
    initial difference that has shrunk by the factor
    [1 - Dt k (1 / mcp_1 + 1 / mcp_2)] in each step; so the difference of
    the two temperatures is that factor to the power [n] times the initial
    difference. *)
Theorem two_block_closed_form (randn : nat -> R) (uninitialised : nat -> nat -> R)
    (N : nat) (Dt mcp_1 mcp_2 k x_1 x_2 std_noise_y : R) :
  0 < mcp_1 -> 0 < mcp_2 -> (1 <= N)%nat ->
  exists st,
    generate randn uninitialised N 2 2
      (transition 2 Dt (diag [mcp_1; mcp_2]) (K_2 k)) [x_1; x_2] 0 std_noise_y
    = Ok st
    /\ forall n, (n < N)%nat -> exists T1 T2,
         arr_x st !! n = Some [T1; T2]
         /\ T1 = equilibrium mcp_1 mcp_2 x_1 x_2
                 + mcp_2 / (mcp_1 + mcp_2)
                   * (decay Dt mcp_1 mcp_2 k ^ n * (x_1 - x_2))
         /\ T2 = equilibrium mcp_1 mcp_2 x_1 x_2
                 - mcp_1 / (mcp_1 + mcp_2)
                   * (decay Dt mcp_1 mcp_2 k ^ n * (x_1 - x_2))
         /\ T1 - T2 = decay Dt mcp_1 mcp_2 k ^ n * (x_1 - x_2)
         /\ mcp_1 * T1 + mcp_2 * T2 = mcp_1 * x_1 + mcp_2 * x_2.
Proof.
  intros H1 H2 HN.
  set (a := transition 2 Dt (diag [mcp_1; mcp_2]) (K_2 k)).
  destruct (generate_spec randn uninitialised N 2 a [x_1; x_2] 0 std_noise_y HN)
    as (st & Hrun & Hst).
  exists st. split; [exact Hrun |]. intros n Hn.
  pose proof (noise_free_trajectory randn N 2 a [x_1; x_2] 0 std_noise_y
                (N - 1) st Hst eq_refl eq_refl eq_refl n ltac:(lia)) as Hxn.
  unfold a in Hxn. rewrite two_block_powers in Hxn by lra.
  eexists _, _. split; [exact Hxn |]. split; [done |]. split; [done |].
  split; field; lra.
Qed.

Lemma two_block_closed_form_witness :
  exists st,
    Two_blocks.simulated (fun _ => 0) (fun _ _ => 0) = Ok st
    /\ forall n, (n < Two_blocks.N)%nat -> exists T1 T2,
         arr_x st !! n = Some [T1; T2]
         /\ T1 = equilibrium 2000 1500 270 330
                 + 1500 / (2000 + 1500) * (decay 1 2000 1500 5 ^ n * (270 - 330))
         /\ T2 = equilibrium 2000 1500 270 330
                 - 2000 / (2000 + 1500) * (decay 1 2000 1500 5 ^ n * (270 - 330))
         /\ T1 - T2 = decay 1 2000 1500 5 ^ n * (270 - 330)
         /\ 2000 * T1 + 1500 * T2 = 2000 * 270 + 1500 * 330.
Proof.
  apply (two_block_closed_form (fun _ => 0) (fun _ _ => 0) Two_blocks.N
           1 2000 1500 5 270 330 1); [lra | lra |].
  unfold Two_blocks.N. lia.
Defined.

(** *** How an error in the inferred transition matrix reaches the estimates *)

(** The point estimates are affine in the entries of the inferred
    transition matrix.  If [inferred_A] is the true transition matrix plus
    an error [E], then [inferred_k] is [k] plus
    [(mcp_1 (E[0,1] - E[0,0]) + mcp_2 (E[1,0] - E[1,1])) / (4 Dt)]; for three
    blocks [inferred_k12] is [k12] plus
    [(mcp_1 (E[0,1] - E[0,0]) + mcp_2 E[1,0]) / (3 Dt)] and [inferred_k23] is
    [k23] plus [(mcp_3 (E[2,1] - E[2,2]) + mcp_2 E[1,2]) / (3 Dt)]: the
    entries [E[0,2]], [E[2,0]] and [E[1,1]] do not enter the three-block
    estimates. *)
Theorem point_estimates_error (Dt mcp_1 mcp_2 mcp_3 k k12 k23 : R)
    (e00 e01 e02 e10 e11 e12 e20 e21 e22 : R) :
  Dt <> 0 -> mcp_1 <> 0 -> mcp_2 <> 0 -> mcp_3 <> 0 ->
  inferred_k
    (inferred_K 2 Dt (diag [mcp_1; mcp_2])
       (madd (transition 2 Dt (diag [mcp_1; mcp_2]) (K_2 k))
             [[e00; e01]; [e10; e11]]))
  = Ok (k + (mcp_1 * (e01 - e00) + mcp_2 * (e10 - e11)) / (4 * Dt))
  /\ inferred_k12
       (inferred_K 3 Dt (diag [mcp_1; mcp_2; mcp_3])
          (madd (transition 3 Dt (diag [mcp_1; mcp_2; mcp_3]) (K_3 k12 k23))
                [[e00; e01; e02]; [e10; e11; e12]; [e20; e21; e22]]))
     = Ok (k12 + (mcp_1 * (e01 - e00) + mcp_2 * e10) / (3 * Dt))
  /\ inferred_k23
       (inferred_K 3 Dt (diag [mcp_1; mcp_2; mcp_3])
          (madd (transition 3 Dt (diag [mcp_1; mcp_2; mcp_3]) (K_3 k12 k23))
                [[e00; e01; e02]; [e10; e11; e12]; [e20; e21; e22]]))
     = Ok (k23 + (mcp_3 * (e21 - e22) + mcp_2 * e12) / (3 * Dt)).
Proof.
  intros HDt H1 H2 H3.
  split; [| split]; compute_arrays; f_equal; field; done.
Qed.

Lemma point_estimates_error_witness :
  inferred_k
    (inferred_K 2 1 (diag [2000; 1500])
       (madd (transition 2 1 (diag [2000; 1500]) (K_2 5)) [[0; 1]; [0; 0]]))
  = Ok (5 + (2000 * (1 - 0) + 1500 * (0 - 0)) / (4 * 1))
  /\ inferred_k12
       (inferred_K 3 1 (diag [2000; 1500; 2500])
          (madd (transition 3 1 (diag [2000; 1500; 2500]) (K_3 5 4))
                [[0; 1; 0]; [0; 0; 0]; [0; 0; 0]]))
     = Ok (5 + (2000 * (1 - 0) + 1500 * 0) / (3 * 1))
  /\ inferred_k23
       (inferred_K 3 1 (diag [2000; 1500; 2500])
          (madd (transition 3 1 (diag [2000; 1500; 2500]) (K_3 5 4))
                [[0; 1; 0]; [0; 0; 0]; [0; 0; 0]]))
     = Ok (4 + (2500 * (0 - 0) + 1500 * 0) / (3 * 1)).
Proof.
  apply (point_estimates_error 1 2000 1500 2500 5 5 4 0 1 0 0 0 0 0 0 0); lra.
Defined.

End VB_generator_facts.

(** ** Explore_MCMC.ipynb: the right-hand side *)

Section MCMC_rhs_facts.
Import Explore_MCMC.
Open Scope R_scope.

Lemma LSSM_lump_frame (q : parameters) (T1 T2 T3 d1 d2 d3 t : R)
    (dT_rest T_rest p_rest : list R) :
  LSSM_lump (d1 :: d2 :: d3 :: dT_rest) (T1 :: T2 :: T3 :: T_rest)
    (to_vector q ++ p_rest) t
  = Ok (lumped_thermal_model q T1 T2 T3 t ++ dT_rest).
Proof.
  destruct q. unfold LSSM_lump, to_vector, lumped_thermal_model, addindex.
  cbn -[setindex Rplus Rmult Rminus Ropp Rinv Rdiv sin].
  repeat (rewrite setindex_Ok by (cbn [length]; lia);
          cbn -[setindex Rplus Rmult Rminus Ropp Rinv Rdiv sin]).
  f_equal. f_equal; [|f_equal; [|f_equal]]; unfold Φ, Rdiv; ring.
Qed.

(** [LSSM_lump] works in place on the first three entries of [dT]: what
    they held before is overwritten without being read, every further entry
    of [dT] is left alone, and entries of [T] past the third and of [p]
    past the sixteenth are not looked at. *)
Theorem LSSM_lump_in_place (q : parameters) (T1 T2 T3 d1 d2 d3 t : R)
    (dT_rest T_rest p_rest : list R) :
  LSSM_lump (d1 :: d2 :: d3 :: dT_rest) (T1 :: T2 :: T3 :: T_rest)
    (to_vector q ++ p_rest) t
  = Ok (lumped_thermal_model q T1 T2 T3 t ++ dT_rest).
Proof. apply LSSM_lump_frame. Qed.

(** The heat balance of the right-hand side: weighted with the heat
    capacities, the three rates add up to the convective exchange with the
    surroundings plus the input heats.  The conduction between the blocks
    cancels, so an insulated system without input keeps its heat, and a
    system at ambient temperature without input is at rest. *)
Theorem LSSM_lump_heat_balance (q : parameters) (T1 T2 T3 t : R) (dT : list R) :
  mcp_1 q <> 0 -> mcp_2 q <> 0 -> mcp_3 q <> 0 -> length dT = 3%nat ->
  exists r1 r2 r3,
    LSSM_lump dT [T1; T2; T3] (to_vector q) t = Ok [r1; r2; r3]
    /\ mcp_1 q * r1 + mcp_2 q * r2 + mcp_3 q * r3
       = h_a q * (A_1 q * (T_a q - T1) + A_2 q * (T_a q - T2) + A_3 q * (T_a q - T3))
         + Φ (B_1 q) (ω_1 q) t + Φ (B_2 q) (ω_2 q) t + Φ (B_3 q) (ω_3 q) t
    /\ (h_a q = 0 -> B_1 q = 0 -> B_2 q = 0 -> B_3 q = 0 ->
        mcp_1 q * r1 + mcp_2 q * r2 + mcp_3 q * r3 = 0)
    /\ (B_1 q = 0 -> B_2 q = 0 -> B_3 q = 0 ->
        T1 = T_a q -> T2 = T_a q -> T3 = T_a q ->
        r1 = 0 /\ r2 = 0 /\ r3 = 0).
Proof.
  intros H1 H2 H3 Hlen.
  destruct dT as [|d1 [|d2 [|d3 [|? ?]]]]; try discriminate.
  pose proof (LSSM_lump_frame q T1 T2 T3 d1 d2 d3 t [] [] []) as Hrun.
  rewrite !app_nil_r in Hrun. rewrite Hrun. unfold lumped_thermal_model.
  eexists _, _, _. split; [reflexivity |].
  assert (Hbalance :
    mcp_1 q * ((k12 q * (T2 - T1) + h_a q * A_1 q * (T_a q - T1)
                + B_1 q * sin (ω_1 q * t)) / mcp_1 q)
    + mcp_2 q * ((k12 q * (T1 - T2) + k23 q * (T3 - T2)
                  + h_a q * A_2 q * (T_a q - T2) + B_2 q * sin (ω_2 q * t)) / mcp_2 q)
    + mcp_3 q * ((k23 q * (T2 - T3) + h_a q * A_3 q * (T_a q - T3)
                  + B_3 q * sin (ω_3 q * t)) / mcp_3 q)
    = h_a q * (A_1 q * (T_a q - T1) + A_2 q * (T_a q - T2) + A_3 q * (T_a q - T3))
      + Φ (B_1 q) (ω_1 q) t + Φ (B_2 q) (ω_2 q) t + Φ (B_3 q) (ω_3 q) t).
  { unfold Φ. field. done. }
  split; [exact Hbalance |]. split.
  - intros Hh Hb1 Hb2 Hb3. rewrite Hbalance, Hh, Hb1, Hb2, Hb3. unfold Φ. ring.
  - intros Hb1 Hb2 Hb3 -> -> ->. rewrite Hb1, Hb2, Hb3.
    repeat split; field; done.
Qed.

Lemma LSSM_lump_heat_balance_witness :
  exists r1 r2 r3,
    LSSM_lump [0; 0; 0] [330; 270; 310] (to_vector Explore_MCMC_rest.true_p) 0
    = Ok [r1; r2; r3]
    /\ 2000 * r1 + 1500 * r2 + 2500 * r3
       = 2 * (1 * (290 - 330) + 1 * (290 - 270) + 1 * (290 - 310))
         + Φ 300 (3 / 100) 0 + Φ (-300) (24 / 1000) 0 + Φ 150 (38 / 1000) 0
    /\ (2 = 0 -> 300 = 0 -> -300 = 0 -> 150 = 0 ->
        2000 * r1 + 1500 * r2 + 2500 * r3 = 0)
    /\ (300 = 0 -> -300 = 0 -> 150 = 0 -> 330 = 290 -> 270 = 290 -> 310 = 290 ->
        r1 = 0 /\ r2 = 0 /\ r3 = 0).
Proof.
  apply (LSSM_lump_heat_balance Explore_MCMC_rest.true_p 330 270 310 0 [0; 0; 0]);
    simpl; try lra; reflexivity.
Defined.

End MCMC_rhs_facts.

(** ** Explore_MCMC.ipynb: the parameters of the sampled trajectories *)

Section MCMC_sampled_facts.
Import Explore_MCMC Explore_MCMC_rest.
Open Scope R_scope.

Lemma list_inserts_tail {A} (lo : nat) (k l : list A) :
  (lo + length k = length l)%nat -> list_inserts lo k l = take lo l ++ k.
Proof.
  intros Hlen. rewrite <- (take_drop lo l) at 1.
  assert (Hlo : length (take lo l) = lo) by (rewrite length_take; lia).
  rewrite <- (Nat.add_0_r lo) at 1. rewrite <- Hlo at 1.
  rewrite list_inserts_app_r.
  rewrite <- (app_nil_r (drop lo l)).
  rewrite list_inserts_0_r by (rewrite length_drop; lia).
  by rewrite app_nil_r.
Qed.

Lemma tail_range_in (len : nat) (id_count : Z) :
  (0 <= id_count < Z.of_nat len)%Z ->
  tail_range len id_count
  = Ok ((len - S (Z.to_nat id_count))%nat, S (Z.to_nat id_count)).
Proof.
  intros H. unfold tail_range.
  case_decide; [lia |]. case_decide; [| lia]. do 2 f_equal. lia.
Qed.

Lemma assign_tail_in (params_cur params_row : list R) (id_count : Z) :
  (0 <= id_count < Z.of_nat (length params_cur))%Z ->
  (id_count < Z.of_nat (length params_row))%Z ->
  assign_tail params_cur params_row id_count
  = Ok (take (length params_cur - S (Z.to_nat id_count)) params_cur
        ++ drop (length params_row - S (Z.to_nat id_count)) params_row).
Proof.
  intros Hcur Hrow. unfold assign_tail.
  rewrite !tail_range_in by lia. cbn [mbind result_bind].
  rewrite take_ge by (rewrite length_drop; lia).
  rewrite list_inserts_tail by (rewrite length_drop; lia). done.
Qed.

Lemma sampled_traj_plot_loop_in (all_params : list R) (id_count : Z)
    (rows : list (list R)) : forall params_cur solved,
  (0 <= id_count < Z.of_nat (length all_params))%Z ->
  Forall (fun row => (id_count < Z.of_nat (length row))%Z) rows ->
  length params_cur = length all_params ->
  take (length all_params - S (Z.to_nat id_count)) params_cur
  = take (length all_params - S (Z.to_nat id_count)) all_params ->
  sampled_traj_plot_loop params_cur rows id_count solved
  = Ok (solved
        ++ map (fun row =>
                  take (length all_params - S (Z.to_nat id_count)) all_params
                  ++ drop (length row - S (Z.to_nat id_count)) row) rows).
Proof.
  induction rows as [|row rows IH]; intros params_cur solved Hid Hrows Hlen Hkeep.
  - simpl. by rewrite app_nil_r.
  - apply Forall_cons in Hrows as [Hrow Hrows].
    cbn [sampled_traj_plot_loop].
    rewrite assign_tail_in by (rewrite ?Hlen; lia). cbn [mbind result_bind].
    rewrite Hlen, Hkeep.
    rewrite IH; [by rewrite <- app_assoc | done | done | |].
    + rewrite length_app, length_take, length_drop. lia.
    + rewrite take_app_le by (rewrite length_take; lia).
      rewrite take_take. f_equal. lia.
Qed.

(** Although [sampled_traj_plot] overwrites one array again and again, every
    trajectory is solved with the parameters the caller passed, except that
    the last [id_count + 1] of them come from that row of the samples:
    nothing is carried over from one sample to the next, and the leading
    columns of a row never reach the solver. *)
Theorem sampled_traj_plot_parameters (params_samples : list (list R))
    (all_params : list R) (id_count : Z) :
  (0 <= id_count < Z.of_nat (length all_params))%Z ->
  Forall (fun row => (id_count < Z.of_nat (length row))%Z) params_samples ->
  sampled_traj_plot params_samples all_params id_count
  = Ok (map (fun row =>
               take (length all_params - S (Z.to_nat id_count)) all_params
               ++ drop (length row - S (Z.to_nat id_count)) row)
          params_samples).
Proof.
  intros Hid Hrows. unfold sampled_traj_plot.
  by rewrite (sampled_traj_plot_loop_in all_params) by done.
Qed.

Lemma sampled_traj_plot_parameters_witness :
  sampled_traj_plot [[1; 6; 5; 3]; [2; 4; 3; 1]] (to_vector true_p) 2
  = Ok (map (fun row =>
               take (length (to_vector true_p) - S (Z.to_nat 2)) (to_vector true_p)
               ++ drop (length row - S (Z.to_nat 2)) row)
          [[1; 6; 5; 3]; [2; 4; 3; 1]]).
Proof.
  apply (sampled_traj_plot_parameters [[1; 6; 5; 3]; [2; 4; 3; 1]]
           (to_vector true_p) 2).
  - simpl. lia.
  - repeat constructor; simpl; lia.
Defined.

(** A negative [id_count] selects nothing, so every trajectory is solved
    with [all_params] itself; an [id_count] that reaches past the first
    entry of [all_params] or of a row is a [BoundsError]. *)
Theorem sampled_traj_plot_edges (params_samples : list (list R))
    (all_params : list R) (id_count : Z) :
  ((id_count < 0)%Z ->
   sampled_traj_plot params_samples all_params id_count
   = Ok (map (fun _ => all_params) params_samples))
  /\ ((Z.of_nat (length all_params) <= id_count)%Z -> params_samples <> [] ->
      sampled_traj_plot params_samples all_params id_count = Raise BoundsError)
  /\ (forall row rows,
        (0 <= id_count < Z.of_nat (length all_params))%Z ->
        (Z.of_nat (length row) <= id_count)%Z ->
        sampled_traj_plot (row :: rows) all_params id_count = Raise BoundsError).
Proof.
  split; [| split].
  - intros Hneg. unfold sampled_traj_plot.
    assert (Hloop : forall rows solved,
      sampled_traj_plot_loop all_params rows id_count solved
      = Ok (solved ++ map (fun _ => all_params) rows)).
    { induction rows as [|row rows IH]; intros solved; simpl.
      - by rewrite app_nil_r.
      - unfold assign_tail, tail_range. case_decide; [| lia].
        cbn [mbind result_bind]. rewrite take_0. cbn [list_inserts].
        rewrite IH. by rewrite <- app_assoc. }
    apply Hloop.
  - intros Hbig Hne. destruct params_samples as [|row rows]; [done |].
    unfold sampled_traj_plot. cbn [sampled_traj_plot_loop].
    unfold assign_tail, tail_range.
    destruct (decide (id_count < 0)%Z); [lia |].
    destruct (decide (id_count < Z.of_nat (length all_params))%Z); [lia | done].
  - intros row rows Hid Hrow. unfold sampled_traj_plot.
    cbn [sampled_traj_plot_loop]. unfold assign_tail.
    rewrite (tail_range_in (length all_params)) by lia. cbn [mbind result_bind].
    unfold tail_range. destruct (decide (id_count < 0)%Z); [lia |].
    destruct (decide (id_count < Z.of_nat (length row))%Z); [lia | done].
Qed.

(** The model and the plot agree on the dynamics of a sample.  For the
    constants that the notebook passes to [fit_LSSM_lump], the model solves
    the system with the true parameters in which [k12], [k23] and [h_a] are
    replaced by the sampled values; called with [id_count = 2] on samples
    [(σ, k12, k23, h_a)], [sampled_traj_plot] solves it with exactly these
    vectors, so [σ] never enters the dynamics. *)
Theorem sampled_trajectories_match_model (q : parameters) (Δ : R)
    (samples : list (R * R * R * R)) :
  (forall k12 k23 h_a,
      fit_LSSM_lump_p (syst_consts q Δ) k12 k23 h_a
      = Ok (to_vector (with_sample q k12 k23 h_a), Δ))
  /\ sampled_traj_plot
       (map (fun '(σ, k12, k23, h_a) => [σ; k12; k23; h_a]) samples)
       (to_vector q) 2
     = Ok (map (fun '(_, k12, k23, h_a) => to_vector (with_sample q k12 k23 h_a))
             samples).
Proof.
  split; [reflexivity |]. unfold sampled_traj_plot.
  rewrite (sampled_traj_plot_loop_in (to_vector q)); [| simpl; lia | | done | done].
  - rewrite map_map. cbn [app]. f_equal. apply map_ext.
    intros [[[σ k12] k23] h_a]. destruct q. reflexivity.
  - apply Forall_map, Forall_forall. intros [[[σ k12] k23] h_a] _. simpl. lia.
Qed.

End MCMC_sampled_facts.

(** ** Explore_MCMC.ipynb: the tick labels of the heat map *)

Section MCMC_time_axis_facts.
Import Bayesics_Coin Explore_MCMC_rest.
Open Scope Z_scope.

Variable string : Z -> String.string.
Variables (sample_size Δ : Z) (steps : positive).
Hypothesis Hsize : 0 <= sample_size < 2 ^ 63 - 1.

Local Abbreviation step := (Z.quot sample_size (Z.pos steps)).
Local Abbreviation position i := (Z.to_nat (i * step)).
Local Abbreviation label i := (string (mul64 Δ (i * step))).

Lemma step_bounds i : 0 <= i <= Z.pos steps -> 0 <= i * step <= sample_size.
Proof.
  intros Hi. rewrite Z.quot_div_nonneg by lia.
  pose proof (Z.mul_div_le sample_size (Z.pos steps) ltac:(lia)) as Hle.
  pose proof (Z.div_pos sample_size (Z.pos steps) ltac:(lia) ltac:(lia)) as Hpos.
  nia.
Qed.

Lemma lookup_time (j : nat) :
  (j < Z.to_nat (sample_size + 1))%nat ->
  time sample_size Δ !! j = Some (mul64 Δ (Z.of_nat j)).
Proof.
  intros Hj. unfold time, range. rewrite !list_lookup_fmap.
  replace (sample_size - 0 + 1) with (sample_size + 1) by lia.
  rewrite lookup_seq_lt by done. done.
Qed.

Lemma time_axis_step_spec (time_axis : list String.string) i :
  length time_axis = Z.to_nat (sample_size + 1) -> 0 <= i <= Z.pos steps ->
  time_axis_step string step Δ time_axis i
  = Ok (<[position i := label i]> time_axis).
Proof.
  intros Hlen Hi. pose proof (step_bounds i Hi) as Hb.
  unfold time_axis_step, setindex_int, mul64, add64.
  rewrite (wrap64_in_range (i * step)) by (unfold in_int64; lia).
  rewrite (wrap64_in_range (i * step + 1)) by (unfold in_int64; lia).
  case_decide; [| lia]. rewrite setindex_Ok by lia.
  replace (pred (Z.to_nat (i * step + 1))) with (position i) by lia.
  by rewrite (Z.mul_comm Δ).
Qed.

(** Every entry is empty or the label of its own column. *)
Local Abbreviation own_labels time_axis :=
  (forall (j : nat) l, time_axis !! j = Some l ->
     l = String.EmptyString \/ l = string (mul64 Δ (Z.of_nat j))).

Lemma time_axis_loop_spec (indices : list Z) : forall time_axis,
  length time_axis = Z.to_nat (sample_size + 1) ->
  Forall (fun i => 0 <= i <= Z.pos steps) indices ->
  own_labels time_axis ->
  exists time_axis',
    time_axis_loop string step Δ time_axis indices = Ok time_axis'
    /\ length time_axis' = length time_axis
    /\ own_labels time_axis'
    /\ (forall i, 0 <= i <= Z.pos steps ->
          time_axis !! position i = Some (label i) \/ i ∈ indices ->
          time_axis' !! position i = Some (label i)).
Proof.
  induction indices as [|i0 indices IH]; intros time_axis Hlen Hall Hown.
  - exists time_axis. simpl. split; [done |]. split; [done |]. split; [done |].
    intros i Hi [H | H]; [done | by apply elem_of_nil in H].
  - apply Forall_cons in Hall as [Hi0 Hall].
    pose proof (step_bounds i0 Hi0) as Hb0.
    cbn [time_axis_loop]. rewrite time_axis_step_spec by done.
    cbn [mbind result_bind].
    destruct (IH (<[position i0 := label i0]> time_axis))
      as (time_axis' & Hrun & Hlen' & Hown' & Hwritten).
    { by rewrite length_insert. }
    { done. }
    { intros j l Hj. destruct (decide (j = position i0)) as [-> | Hne].
      - rewrite list_lookup_insert_eq in Hj by lia. injection Hj as <-.
        right. by rewrite Z2Nat.id by lia.
      - rewrite list_lookup_insert_ne in Hj by done. by apply Hown. }
    exists time_axis'. rewrite length_insert in Hlen'.
    split; [done |]. split; [done |]. split; [done |].
    intros i Hi Hcase. apply Hwritten; [done |].
    pose proof (step_bounds i Hi) as Hb.
    destruct (decide (position i = position i0)) as [Heq | Hne].
    + left. rewrite Heq, list_lookup_insert_eq by lia.
      assert (i * step = i0 * step) as -> by lia. done.
    + destruct Hcase as [H | H].
      * left. by rewrite list_lookup_insert_ne.
      * apply elem_of_cons in H as [-> | H]; [done | by right].
Qed.

Lemma time_axis_total :
  exists axis,
    time_axis string sample_size Δ steps = Ok axis
    /\ length axis = length (time sample_size Δ)
    /\ (forall (j : nat) l t,
          axis !! j = Some l -> time sample_size Δ !! j = Some t ->
          l = String.EmptyString \/ l = string t)
    /\ (forall i, 0 <= i <= Z.pos steps -> exists t,
          getindex (time sample_size Δ) (Z.to_nat (i * step + 1)) = Ok t
          /\ getindex axis (Z.to_nat (i * step + 1)) = Ok (string t)).
Proof.
  unfold time_axis, add64.
  rewrite wrap64_in_range by (unfold in_int64; lia).
  case_decide; [lia |].
  destruct (time_axis_loop_spec (range 0 (Z.pos steps))
              (replicate (Z.to_nat (sample_size + 1)) String.EmptyString))
    as (axis & Hrun & Hlen & Hown & Hwritten).
  { by rewrite length_replicate. }
  { apply Forall_forall. intros i Hi. unfold range in Hi.
    apply list_elem_of_fmap in Hi as (k & -> & Hk).
    apply elem_of_seq in Hk. lia. }
  { intros j l Hj. apply lookup_replicate in Hj as [-> _]. by left. }
  rewrite length_replicate in Hlen.
  assert (Htime : length (time sample_size Δ) = Z.to_nat (sample_size + 1)).
  { unfold time, range. rewrite !length_map, length_seq. f_equal. lia. }
  exists axis. split; [done |]. split; [congruence |]. split.
  - intros j l t Hj Ht.
    rewrite lookup_time in Ht by (apply lookup_lt_Some in Hj; lia).
    injection Ht as <-. by apply Hown.
  - intros i Hi. pose proof (step_bounds i Hi) as Hb.
    exists (mul64 Δ (i * step)).
    replace (Z.to_nat (i * step + 1)) with (S (position i)) by lia.
    cbn [getindex]. rewrite lookup_time by lia.
    rewrite Z2Nat.id by lia. split; [done |].
    rewrite Hwritten; [done | done |]. right.
    unfold range. apply list_elem_of_fmap. exists (Z.to_nat i).
    split; [lia |]. apply elem_of_seq. lia.
Qed.

End MCMC_time_axis_facts.

(** The loop that labels the ticks stays in bounds for every number of
    columns and every positive number of steps, and each label it writes is
    the time of its own column: the entry of [time_axis] at an index is
    empty or the string of the entry of [time] at that index, and the
    columns [i * step + 1] for [i = 0..steps] carry their label. *)
Theorem time_axis_labels (string : Z -> String.string) (sample_size Δ : Z)
    (steps : positive) :
  (0 <= sample_size < 2 ^ 63 - 1)%Z ->
  exists axis,
    Explore_MCMC_rest.time_axis string sample_size Δ steps = Ok axis
    /\ length axis = length (Explore_MCMC_rest.time sample_size Δ)
    /\ (forall (j : nat) l t,
          axis !! j = Some l ->
          Explore_MCMC_rest.time sample_size Δ !! j = Some t ->
          l = String.EmptyString \/ l = string t)
    /\ (forall i, (0 <= i <= Z.pos steps)%Z -> exists t,
          getindex (Explore_MCMC_rest.time sample_size Δ)
            (Z.to_nat (i * Z.quot sample_size (Z.pos steps) + 1)) = Ok t
          /\ getindex axis (Z.to_nat (i * Z.quot sample_size (Z.pos steps) + 1))
             = Ok (string t)).
Proof. apply time_axis_total. Qed.

Lemma time_axis_labels_witness :
  exists axis,
    Explore_MCMC_rest.time_axis Explore_MCMC_rest.string_stub 100 5 5 = Ok axis
    /\ length axis = length (Explore_MCMC_rest.time 100 5)
    /\ (forall (j : nat) l t,
          axis !! j = Some l ->
          Explore_MCMC_rest.time 100 5 !! j = Some t ->
          l = String.EmptyString \/ l = Explore_MCMC_rest.string_stub t)
    /\ (forall i, (0 <= i <= 5)%Z -> exists t,
          getindex (Explore_MCMC_rest.time 100 5)
            (Z.to_nat (i * Z.quot 100 5 + 1)) = Ok t
          /\ getindex axis (Z.to_nat (i * Z.quot 100 5 + 1))
             = Ok (Explore_MCMC_rest.string_stub t)).
Proof.
  apply (time_axis_labels Explore_MCMC_rest.string_stub 100 5 5). lia.
Defined.

(** ** Explore_UKF.ipynb: the simulated temperatures and the observations *)

Section UKF_more_facts.
Import Explore_UKF.
Open Scope R_scope.

Lemma pow_unit_interval (θ : R) (n : nat) : 0 < θ < 1 -> 0 < θ ^ n <= 1.
Proof.
  intros Hθ. induction n as [|n IH]; simpl; [lra | nra].
Qed.

(** For a transition coefficient in the unit interval the simulated
    temperature moves towards the ambient temperature from one side only:
    a block that starts colder warms up step by step and stays below the
    ambient temperature, a block that starts warmer cools down and stays
    above it, and a block at ambient temperature stays there. *)
Theorem cooling_is_monotone (N : nat) (θ T_a T_1 : R) :
  0 < θ < 1 ->
  exists T,
    simulate N θ T_a T_1 = Ok T
    /\ forall n, (n < N)%nat -> exists Tn Tn1,
         getindex T (n + 1) = Ok Tn /\ getindex T (n + 2) = Ok Tn1
         /\ (T_1 < T_a -> T_1 <= Tn /\ Tn < Tn1 /\ Tn1 < T_a)
         /\ (T_a < T_1 -> T_a < Tn1 /\ Tn1 < Tn /\ Tn <= T_1)
         /\ (T_1 = T_a -> Tn = T_a /\ Tn1 = T_a).
Proof.
  intros Hθ.
  destruct (simulate_closed_form N θ T_a T_1) as (T & Hrun & Hlen & Hclosed).
  exists T. split; [exact Hrun |]. intros n Hn.
  exists (T_a + θ ^ n * (T_1 - T_a)), (T_a + θ ^ S n * (T_1 - T_a)).
  split; [rewrite Nat.add_1_r; simpl; by rewrite (Hclosed n) by lia |].
  split; [replace (n + 2)%nat with (S (S n)) by lia;
          cbn [getindex]; by rewrite (Hclosed (S n)) by lia |].
  pose proof (pow_unit_interval θ n Hθ) as Hpow.
  simpl. set (p := θ ^ n) in *. set (d := T_1 - T_a).
  replace T_1 with (T_a + d) by (unfold d; ring).
  replace (θ * p * d) with (θ * (p * d)) by ring.
  split; [| split]; intros Hcase.
  - assert (Hd : d < 0) by lra.
    assert (Hpd : 0 < p * (- d)) by (apply Rmult_lt_0_compat; lra).
    assert (Hpd' : 0 <= (1 - p) * (- d)) by (apply Rmult_le_pos; lra).
    assert (Hθ0 : 0 < θ * (p * (- d))) by (apply Rmult_lt_0_compat; lra).
    assert (Hθ1 : 0 < (1 - θ) * (p * (- d))) by (apply Rmult_lt_0_compat; lra).
    lra.
  - assert (Hd : 0 < d) by lra.
    assert (Hpd : 0 < p * d) by (apply Rmult_lt_0_compat; lra).
    assert (Hpd' : 0 <= (1 - p) * d) by (apply Rmult_le_pos; lra).
    assert (Hθ0 : 0 < θ * (p * d)) by (apply Rmult_lt_0_compat; lra).
    assert (Hθ1 : 0 < (1 - θ) * (p * d)) by (apply Rmult_lt_0_compat; lra).
    lra.
  - assert (Hd : d = 0) by lra. rewrite Hd. split; ring.
Qed.

Lemma cooling_is_monotone_witness :
  exists T,
    simulate N (35 / 36) T_a T_1 = Ok T
    /\ forall n, (n < N)%nat -> exists Tn Tn1,
         getindex T (n + 1) = Ok Tn /\ getindex T (n + 2) = Ok Tn1
         /\ (T_1 < T_a -> T_1 <= Tn /\ Tn < Tn1 /\ Tn1 < T_a)
         /\ (T_a < T_1 -> T_a < Tn1 /\ Tn1 < Tn /\ Tn <= T_1)
         /\ (T_1 = T_a -> Tn = T_a /\ Tn1 = T_a).
Proof. apply (cooling_is_monotone N (35 / 36) T_a T_1). lra. Defined.

(** [generate_data] on as many states as draws and a positive precision
    [τ]: observation [i] is state [i] plus draw [i] of the generator
    divided by [sqrt τ], so the squared residual times [τ] is the squared
    draw ([τ] is the reciprocal of the noise variance); the generator
    advances by the number of states. *)
Theorem generate_data_observations (randn : nat -> R) (pos : nat)
    (states : list R) (τ : R) :
  0 < τ ->
  exists y_,
    generate_data randn pos (Z.of_nat (length states)) states τ
    = (Ok y_, (pos + length states)%nat)
    /\ length y_ = length states
    /\ forall i s, states !! i = Some s ->
         exists y, y_ !! i = Some y
           /\ y = s + randn (pos + i)%nat / sqrt τ
           /\ (y - s) ^ 2 * τ = randn (pos + i)%nat ^ 2.
Proof.
  intros Hτ. unfold generate_data.
  case_decide; [lia |]. rewrite Nat2Z.id.
  destruct (Rlt_dec τ 0) as [Hneg | _]; [lra |].
  case_decide as Hlen; [| by rewrite length_map, length_map, length_seq in Hlen].
  eexists. split; [reflexivity |].
  split; [rewrite length_zip_with, !length_map, length_seq; lia |].
  intros i s Hs. apply lookup_lt_Some in Hs as Hi.
  eexists. split.
  - rewrite lookup_zip_with, Hs. cbn [mbind option_bind].
    rewrite !list_lookup_fmap, lookup_seq_lt by done. reflexivity.
  - split; [reflexivity |].
    assert (Hroot : 0 < sqrt τ) by (by apply sqrt_lt_R0).
    replace ((s + randn (pos + i)%nat * / sqrt τ - s) ^ 2 * τ)
      with (randn (pos + i)%nat ^ 2 * (τ / (sqrt τ * sqrt τ)))
      by (field; lra).
    rewrite sqrt_sqrt by lra. field. lra.
Qed.

Lemma generate_data_observations_witness :
  exists y_,
    generate_data (fun _ => 1) 0 (Z.of_nat (length [255; 256])) [255; 256] (4 / 100)
    = (Ok y_, (0 + length [255; 256])%nat)
    /\ length y_ = length [255; 256]
    /\ forall i s, [255; 256] !! i = Some s ->
         exists y, y_ !! i = Some y
           /\ y = s + 1 / sqrt (4 / 100)
           /\ (y - s) ^ 2 * (4 / 100) = 1 ^ 2.
Proof.
  apply (generate_data_observations (fun _ => 1) 0 [255; 256] (4 / 100)). lra.
Defined.


End UKF_more_facts.
